(** * claude_autoapprove_mcp: the auto-approve server, embedded and verified

    A shallow embedding of [src/claude_autoapprove_mcp/autoapprove_server.py].

    The program is orchestration glue over the operating system: it reads the
    process table through psutil, runs subprocesses, forks, probes a port and
    hands over to external collaborators.  Every such call is modelled as a
    call to an oracle of the environment [env] (what the outside world
    answers), logged in a trace of [event]s; Python exceptions are a result of
    the computation.  The monad [M] below threads the trace and the
    exceptions the way the Python code does. *)

From Stdlib Require Import String Ascii List ZArith Bool Lia.
Import ListNotations.
Open Scope string_scope.
Open Scope Z_scope.
Open Scope list_scope.

(** ** Python values the program handles *)

(** The exceptions the program raises, catches or lets through.  [SystemExit]
    is what [sys.exit] raises; it derives from [BaseException] only, so an
    [except Exception] clause lets it through. *)
Inductive exn : Type :=
| NoSuchProcess
| AccessDenied
| ZombieProcess
| TimeoutError
| OSError
| RecursionError
| OtherException (msg : string)
| SystemExit (code : Z).

(** [except (psutil.NoSuchProcess, psutil.AccessDenied, psutil.ZombieProcess)] *)
Definition is_psutil_tolerated (e : exn) : bool :=
  match e with
  | NoSuchProcess | AccessDenied | ZombieProcess => true
  | _ => false
  end.

(** [except Exception] *)
Definition is_Exception (e : exn) : bool :=
  match e with
  | SystemExit _ => false
  | _ => true
  end.

(** [except OSError]: [TimeoutError] is a subclass of [OSError]. *)
Definition is_OSError (e : exn) : bool :=
  match e with
  | OSError | TimeoutError => true
  | _ => false
  end.

(** [except TimeoutError] *)
Definition is_TimeoutError (e : exn) : bool :=
  match e with
  | TimeoutError => true
  | _ => false
  end.

(** What an external call answers: a value or a raised exception. *)
Inductive result (A : Type) : Type :=
| Ok (a : A)
| Err (e : exn).
Arguments Ok {A} a.
Arguments Err {A} e.

(** What a piece of the program does: it returns, it raises, or it is still
    looping, or still calling itself, when the budget of the model is used
    up. *)
Inductive outcome (A : Type) : Type :=
| Ret (a : A)
| Raise (e : exn)
| Diverge.
Arguments Ret {A} a.
Arguments Raise {A} e.
Arguments Diverge {A}.

(** A process handle ([psutil.Process]) is identified by its pid. *)
Abbreviation pid := Z (only parsing).

(** ** Strings *)

(** Python's [pat in s] on strings. *)
Fixpoint contains (pat s : string) : bool :=
  match s with
  | EmptyString => prefix pat s
  | String _ s' => prefix pat s || contains pat s'
  end.

(** [str.lower] on the ASCII letters; the other bytes are left as they are. *)
Definition lower_ascii (c : ascii) : ascii :=
  let n := nat_of_ascii c in
  if (Nat.leb 65 n && Nat.leb n 90)%bool then ascii_of_nat (n + 32) else c.

Fixpoint lower (s : string) : string :=
  match s with
  | EmptyString => EmptyString
  | String c s' => String (lower_ascii c) (lower s')
  end.

(** [str.startswith] *)
Definition startswith (s pre : string) : bool := prefix pre s.

(** *** [str] of a list of strings

    [str(proc.cmdline())] is the [repr] of a list: the [repr] of each element,
    separated by a comma and a space, between brackets.  The [repr] of a string
    chooses its quote (double quotes when the string has a single quote and no
    double quote, single quotes otherwise), escapes the quote and the
    backslash, writes tab, newline and carriage return as [\t], [\n], [\r] and
    the other control characters as [\xhh].  Strings are byte strings here: a
    byte from 128 on belongs to the UTF-8 encoding of a character beyond ASCII
    and is copied, which is what [repr] does with printable characters. *)
Definition hex_digit (n : nat) : ascii :=
  if Nat.ltb n 10 then ascii_of_nat (48 + n) else ascii_of_nat (87 + n).

Definition backslash : ascii := ascii_of_nat 92.
Definition single_quote : ascii := ascii_of_nat 39.
Definition double_quote : ascii := ascii_of_nat 34.

Definition repr_char (quote c : ascii) : list ascii :=
  let n := nat_of_ascii c in
  if (Ascii.eqb c quote || Ascii.eqb c backslash)%bool then [backslash; c]
  else if Nat.eqb n 9 then [backslash; "t"%char]
  else if Nat.eqb n 10 then [backslash; "n"%char]
  else if Nat.eqb n 13 then [backslash; "r"%char]
  else if (Nat.ltb n 32 || Nat.eqb n 127)%bool
       then [backslash; "x"%char; hex_digit (Nat.div n 16); hex_digit (Nat.modulo n 16)]
  else [c].

Definition repr_quote (s : list ascii) : ascii :=
  if (existsb (Ascii.eqb single_quote) s && negb (existsb (Ascii.eqb double_quote) s))%bool
  then double_quote else single_quote.

Definition repr_str (s : list ascii) : list ascii :=
  let q := repr_quote s in
  q :: flat_map (repr_char q) s ++ [q].

Fixpoint repr_items (l : list (list ascii)) : list ascii :=
  match l with
  | [] => []
  | [s] => repr_str s
  | s :: rest => repr_str s ++ [","%char; " "%char] ++ repr_items rest
  end.

Definition str_list (l : list string) : string :=
  string_of_list_ascii
    ("["%char :: repr_items (map list_ascii_of_string l) ++ ["]"%char]).

(** ** Diagnostics and events *)

(** One constructor per [eprint] call of the program, with the values its
    f-string interpolates. *)
Inductive message : Type :=
| MsgStarting (port : Z)
| MsgAppleScriptFailed (e : exn)
| MsgTaskkillFailed (e : exn)
| MsgTerminatingChild (p : pid)
| MsgTerminatingMain (p : pid)
| MsgForceKilling (ps : list pid)
| MsgErrorKilling (e : exn)
| MsgStartedBackground
| MsgNotListening (port : Z)
| MsgAttemptTerminate
| MsgExistingTerminated
| MsgStartingClaude (port : Z)
| MsgFailedConnect (port : Z)
| MsgErrorStarting (e : exn).

(** Every call that leaves the program, in the order the calls are made. *)
Inductive event : Type :=
| Eprint (m : message)
| EProcessIter
| EGetpid
| EName (p : pid)
| ECmdline (p : pid)
| EExe (p : pid)
| EParent (p : pid)
| EChildren (p : pid)
| ETerminate (p : pid)
| EKill (p : pid)
| EWaitProcs (ps : list pid) (timeout : Z)
| ESubprocessRun (argv : list string)
| EPopen (argv : list string)
| EFork
| EChdir (path : string)
| ESetsid
| EUmask (mask : Z)
| EFlushStd
| ERedirectStd
| EIsPortOpen (port : Z)
| EStartClaude (port : Z)
| EInjectScript (port : Z)
| EMcpRun
| EGetTrustedTools.

Definition trace := list event.

(** ** The environment: what the outside world answers

    The process table is a snapshot: an attribute of a process reads the same
    every time.  [os_fork] answers by the history so far, so that one
    environment describes one process among those a run forks (the child of
    one fork can be the parent of the next).  [os_call] answers the calls
    that return nothing ([os.chdir], [os.setsid], [os.umask], the flushes and
    the redirection of the standard streams). *)
Record env (config : Type) : Type := mkEnv {
  sys_platform : string;
  sys_executable : string;
  sys_argv : list string;
  os_getpid : pid;
  process_iter : list pid;
  proc_name : pid -> result string;
  proc_cmdline : pid -> result (list string);
  proc_exe : pid -> result string;
  proc_parent : pid -> result (option pid);
  proc_children : pid -> result (list pid);
  proc_terminate : pid -> result unit;
  proc_kill : pid -> result unit;
  wait_procs : list pid -> Z -> result (list pid * list pid);
  subprocess_run : list string -> result unit;
  subprocess_Popen : list string -> result unit;
  os_fork : trace -> result Z;
  os_call : event -> result unit;
  is_port_open : Z -> result bool;
  start_claude : Z -> result unit;
  inject_script : config -> Z -> result unit;
  mcp_run : result unit;
  claude_config : config;
  get_trusted_tools : config -> result (list string)
}.
Arguments mkEnv {config}.
Arguments sys_platform {config} _.
Arguments sys_executable {config} _.
Arguments sys_argv {config} _.
Arguments os_getpid {config} _.
Arguments process_iter {config} _.
Arguments proc_name {config} _ _.
Arguments proc_cmdline {config} _ _.
Arguments proc_exe {config} _ _.
Arguments proc_parent {config} _ _.
Arguments proc_children {config} _ _.
Arguments proc_terminate {config} _ _.
Arguments proc_kill {config} _ _.
Arguments wait_procs {config} _ _ _.
Arguments subprocess_run {config} _ _.
Arguments subprocess_Popen {config} _ _.
Arguments os_fork {config} _ _.
Arguments os_call {config} _ _.
Arguments is_port_open {config} _ _.
Arguments start_claude {config} _ _.
Arguments inject_script {config} _ _ _.
Arguments mcp_run {config} _.
Arguments claude_config {config} _.
Arguments get_trusted_tools {config} _ _.

(** ** The monad of the program: a trace and exceptions *)

Definition M (A : Type) : Type := trace -> outcome A * trace.

Definition ret {A} (a : A) : M A := fun t => (Ret a, t).

Definition bind {A B} (m : M A) (k : A -> M B) : M B :=
  fun t =>
    match m t with
    | (Ret a, t') => k a t'
    | (Raise e, t') => (Raise e, t')
    | (Diverge, t') => (Diverge, t')
    end.

Definition raise {A} (e : exn) : M A := fun t => (Raise e, t).

Definition diverge {A} : M A := fun t => (Diverge, t).

(** An external call: logged, then answered by the environment.  The answer
    may depend on the history before the call. *)
Definition call_h {A} (ev : event) (r : trace -> result A) : M A :=
  fun t =>
    match r t with
    | Ok a => (Ret a, t ++ [ev])
    | Err e => (Raise e, t ++ [ev])
    end.

Definition call {A} (ev : event) (r : result A) : M A := call_h ev (fun _ => r).

(** [try: m except <classes>: h]: [handler e] is [Some h] when the clause
    catches [e]. *)
Definition try_except {A} (m : M A) (handler : exn -> option (M A)) : M A :=
  fun t =>
    match m t with
    | (Raise e, t') =>
        match handler e with
        | Some h => h t'
        | None => (Raise e, t')
        end
    | r => r
    end.

Declare Scope prog_scope.
Delimit Scope prog_scope with prog.
Notation "x <- m ;; k" := (bind m (fun x => k))
  (at level 100, m at next level, right associativity) : prog_scope.
Notation "m ;; k" := (bind m (fun _ => k))
  (at level 100, right associativity) : prog_scope.
Open Scope prog_scope.

Definition eprint (m : message) : M unit := call (Eprint m) (Ok tt).

(** [for x in l: body x] *)
Fixpoint for_each {A} (l : list A) (body : A -> M unit) : M unit :=
  match l with
  | [] => ret tt
  | x :: rest => body x ;; for_each rest body
  end.


(** ** The program *)

Section Program.

Context {config : Type} (E : env config).

(** Attribute reads of a process handle. *)
Definition name_of (p : pid) : M string := call (EName p) (proc_name E p).
Definition cmdline_of (p : pid) : M (list string) := call (ECmdline p) (proc_cmdline E p).
Definition exe_of (p : pid) : M string := call (EExe p) (proc_exe E p).
Definition parent_of (p : pid) : M (option pid) := call (EParent p) (proc_parent E p).

(** The clause [except (psutil.NoSuchProcess, psutil.AccessDenied,
    psutil.ZombieProcess)] with handler [h]. *)
Definition on_psutil_error {A} (h : M A) (e : exn) : option (M A) :=
  if is_psutil_tolerated e then Some h else None.

(** The clause [except Exception as e] with handler [h e]. *)
Definition on_Exception {A} (h : exn -> M A) (e : exn) : option (M A) :=
  if is_Exception e then Some (h e) else None.

(** *** find_claude_process *)

(** The test of the [if] of the platform's branch: [true] when the branch
    executes [return proc].  Python's [or] reads the command line only when
    the test on the name is false. *)
Definition is_claude (proc : pid) : M bool :=
  if String.eqb (sys_platform E) "darwin" then
    name <- name_of proc ;;
    if String.eqb name "Claude" then ret true
    else cmdline <- cmdline_of proc ;;
         ret (contains "Claude.app" (str_list cmdline))
  else if String.eqb (sys_platform E) "win32" then
    name <- name_of proc ;;
    if contains "Claude.exe" name then ret true
    else cmdline <- cmdline_of proc ;;
         ret (contains "Claude.exe" (str_list cmdline))
  else if startswith (sys_platform E) "linux" then
    name <- name_of proc ;;
    if contains "Claude" name then ret true
    else cmdline <- cmdline_of proc ;;
         ret (contains "Claude" (str_list cmdline))
  else ret false.

(** The [for] loop over [psutil.process_iter]: the body of the [try] returns
    the process or falls out of the [if]; the [except] clause passes. *)
Fixpoint scan_processes (procs : list pid) : M (option pid) :=
  match procs with
  | [] => ret None
  | proc :: rest =>
      found <- try_except (is_claude proc) (on_psutil_error (ret false)) ;;
      if found then ret (Some proc) else scan_processes rest
  end.

(** [EProcessIter] is the call [psutil.process_iter(['pid', 'name',
    'cmdline'])], with what psutil reads by itself to fill [proc.info] for
    the processes it yields; [EName] and [ECmdline] are the calls
    [proc.name()] and [proc.cmdline()] the program makes. *)
Definition find_claude_process : M (option pid) :=
  procs <- call EProcessIter (Ok (process_iter E)) ;;
  scan_processes procs.

(** *** get_main_claude_process *)

(** The first [while current:] loop.  [Some p] is [return current] from
    inside the loop, [None] is the loop left with [current] being [None].
    [fuel] bounds the number of iterations. *)
Fixpoint walk_exe (fuel : nat) (current : option pid) : M (option pid) :=
  match fuel with
  | O => diverge
  | S fuel' =>
      match current with
      | None => ret None
      | Some cur =>
          exe_path <- try_except (exe_of cur) (on_psutil_error (ret "")) ;;
          if contains "Contents/MacOS/Claude" exe_path then ret (Some cur)
          else parent <- parent_of cur ;;
               walk_exe fuel' parent
      end
  end.

(** The second [while current:] loop, with its [candidate]. *)
Fixpoint walk_name (fuel : nat) (current candidate : option pid) : M (option pid) :=
  match fuel with
  | O => diverge
  | S fuel' =>
      match current with
      | None => ret candidate
      | Some cur =>
          name <- name_of cur ;;
          let name := lower name in
          let candidate :=
            if (String.eqb name "claude" || String.eqb name "claude.exe")%bool
            then Some cur else candidate in
          parent <- parent_of cur ;;
          walk_name fuel' parent candidate
      end
  end.

Definition get_main_claude_process (fuel : nat) : M (option pid) :=
  current <- call EGetpid (Ok (os_getpid E)) ;;
  found <- walk_exe fuel (Some current) ;;
  match found with
  | Some p => ret (Some p)
  | None =>
      current <- call EGetpid (Ok (os_getpid E)) ;;
      walk_name fuel (Some current) None
  end.

(** *** kill_claude_process *)

(** The command line of the AppleScript quit: the script is
    [tell application "Claude" to quit], with its two double quotes. *)
Definition osascript_quit : list string :=
  ["osascript"; "-e";
   String.append "tell application "
     (String double_quote (String.append "Claude" (String double_quote " to quit")))].

Definition taskkill_tree : list string :=
  ["taskkill"; "/IM"; "Claude.exe"; "/T"; "/F"].

(** The body of the last [try] of [kill_claude_process], up to its
    [return True]. *)
Definition terminate_tree (proc : pid) : M bool :=
  children <- call (EChildren proc) (proc_children E proc) ;;
  for_each children (fun child =>
    eprint (MsgTerminatingChild child) ;;
    call (ETerminate child) (proc_terminate E child)) ;;
  eprint (MsgTerminatingMain proc) ;;
  call (ETerminate proc) (proc_terminate E proc) ;;
  let wait_list := [proc] ++ children in
  gone_alive <- call (EWaitProcs wait_list 5) (wait_procs E wait_list 5) ;;
  let alive := snd gone_alive in
  match alive with
  | [] => ret tt
  | _ :: _ =>
      eprint (MsgForceKilling alive) ;;
      for_each alive (fun p => call (EKill p) (proc_kill E p))
  end ;;
  ret true.

(** The platform's own quit, tried first: [true] when the branch executes
    its [return True], [false] when the function goes on. *)
Definition native_quit : M bool :=
  if String.eqb (sys_platform E) "darwin" then
    try_except
      (call (ESubprocessRun osascript_quit) (subprocess_run E osascript_quit) ;;
       ret true)
      (on_Exception (fun e => eprint (MsgAppleScriptFailed e) ;; ret false))
  else if String.eqb (sys_platform E) "win32" then
    try_except
      (call (ESubprocessRun taskkill_tree) (subprocess_run E taskkill_tree) ;;
       ret true)
      (on_Exception (fun e => eprint (MsgTaskkillFailed e) ;; ret false))
  else ret false.

(** [get_main_claude_process() or find_claude_process()]: a process handle
    is never falsy, so [or] calls the second only when the first is [None]. *)
Definition locate_claude (fuel : nat) : M (option pid) :=
  main_proc <- get_main_claude_process fuel ;;
  match main_proc with
  | Some p => ret (Some p)
  | None => find_claude_process
  end.

Definition kill_claude_process (fuel : nat) : M bool :=
  quit <- native_quit ;;
  if quit then ret true
  else
    proc <- locate_claude fuel ;;
    match proc with
    | None => ret false
    | Some proc =>
        try_except (terminate_tree proc)
          (on_Exception (fun e => eprint (MsgErrorKilling e) ;; ret false))
    end.

(** *** daemonize, start_in_background *)

Definition sys_exit {A} (code : Z) : M A := raise (SystemExit code).

Definition fork : M Z := call_h EFork (os_fork E).

Definition os_do (ev : event) : M unit := call ev (os_call E ev).

Definition daemonize : M unit :=
  if String.eqb (sys_platform E) "win32" then ret tt
  else
    try_except
      (pid <- fork ;; if pid >? 0 then sys_exit 0 else ret tt)
      (fun e => if is_OSError e then Some (sys_exit 1) else None) ;;
    os_do (EChdir "/") ;;
    os_do ESetsid ;;
    os_do (EUmask 0) ;;
    try_except
      (pid <- fork ;; if pid >? 0 then sys_exit 0 else ret tt)
      (fun e => if is_OSError e then Some (sys_exit 1) else None) ;;
    os_do EFlushStd ;;
    os_do ERedirectStd.

(** The parsed command line: [args.port] and [args.daemon]. *)
Record Args : Type := mkArgs { port : Z; daemon : bool }.

(** [main_rec] is the call [main(args)] of the child. *)
Definition start_in_background (main_rec : Args -> M unit) (args : Args) : M unit :=
  if String.eqb (sys_platform E) "win32" then
    call (EPopen (sys_executable E :: sys_argv E))
         (subprocess_Popen E (sys_executable E :: sys_argv E))
  else
    pid <- fork ;;
    if pid =? 0 then
      daemonize ;;
      main_rec args
    else
      eprint MsgStartedBackground ;;
      sys_exit 0.

(** *** main

    [main] is given the parsed arguments (what [parser.parse_args()] yields
    when it is called with no argument).  [main] calls itself through
    [start_in_background]; [depth] is the number of nested calls of [main]
    the model follows, and a run that needs more is [Diverge]: where the
    interpreter ends such a recursion (a RecursionError at its deepest
    frame) is not part of the model.  [fuel] bounds the loops of
    [get_main_claude_process]. *)
Fixpoint main (depth fuel : nat) (args : Args) : M unit :=
  match depth with
  | O => diverge
  | S depth' =>
      eprint (MsgStarting (port args)) ;;
      if daemon args then
        start_in_background (main depth' fuel) args
      else
        open <- call (EIsPortOpen (port args)) (is_port_open E (port args)) ;;
        if negb open then
          eprint (MsgNotListening (port args)) ;;
          eprint MsgAttemptTerminate ;;
          killed <- kill_claude_process fuel ;;
          (if killed then eprint MsgExistingTerminated else ret tt) ;;
          eprint (MsgStartingClaude (port args)) ;;
          try_except
            (call (EStartClaude (port args)) (start_claude E (port args)))
            (fun e =>
               if is_TimeoutError e then Some (eprint (MsgFailedConnect (port args)))
               else if is_Exception e then Some (eprint (MsgErrorStarting e))
               else None)
        else
          call (EInjectScript (port args))
               (inject_script E (claude_config E) (port args)) ;;
          call EMcpRun (mcp_run E)
  end.

(** *** The tool of the server *)

Definition autoapproved_tools : M (list string) :=
  call EGetTrustedTools (get_trusted_tools E (claude_config E)).

End Program.

(** * The vocabulary of the statements

    The predicates the theorems are stated with, and the sample environments
    they are tried on. *)

(** [prefix] and [contains] on lists of characters, where the printed
    command line is built. *)
Fixpoint lprefix (p l : list ascii) : bool :=
  match p with
  | [] => true
  | a :: p' =>
      match l with
      | [] => false
      | b :: l' => Ascii.eqb a b && lprefix p' l'
      end
  end.

Fixpoint lcontains (p l : list ascii) : bool :=
  match l with
  | [] => lprefix p l
  | _ :: l' => lprefix p l || lcontains p l'
  end.

(** A character that [repr] copies whatever the quote: not a quote, not the
    backslash, not a control character. *)
Definition plain_char (c : ascii) : bool :=
  let n := nat_of_ascii c in
  negb (Ascii.eqb c single_quote || Ascii.eqb c double_quote || Ascii.eqb c backslash
        || Nat.ltb n 32 || Nat.eqb n 127).

(** The patterns the program looks for: a capital C, then plain characters. *)
Definition app_pattern (pat : string) : Prop :=
  exists ps, list_ascii_of_string pat = "C"%char :: ps /\ forallb plain_char ps = true.

Definition is_quote (q : ascii) : Prop := q = single_quote \/ q = double_quote.

(** The spec's words for a process that identifies the app on the current
    platform.  macOS: the name equals the display name or the command line
    mentions the bundle; Windows: the name or the command line mentions the
    [.exe] name; Linux: the name or the command line contains the display
    name.  An attribute that cannot be read identifies nothing. *)
Definition name_has (test : string -> bool) (r : result string) : bool :=
  match r with
  | Ok n => test n
  | Err _ => false
  end.

Definition cmdline_mentions (pat : string) (r : result (list string)) : bool :=
  match r with
  | Ok l => existsb (contains pat) l
  | Err _ => false
  end.

Definition app_identifying {config} (E : env config) (p : pid) : bool :=
  if String.eqb (sys_platform E) "darwin" then
    name_has (fun n => String.eqb n "Claude") (proc_name E p)
    || cmdline_mentions "Claude.app" (proc_cmdline E p)
  else if String.eqb (sys_platform E) "win32" then
    name_has (contains "Claude.exe") (proc_name E p)
    || cmdline_mentions "Claude.exe" (proc_cmdline E p)
  else if startswith (sys_platform E) "linux" then
    name_has (contains "Claude") (proc_name E p)
    || cmdline_mentions "Claude" (proc_cmdline E p)
  else false.

(** A valid match: the test of the program runs to [True] on the process. *)
Definition valid_match {config} (E : env config) (p : pid) : bool :=
  match fst (is_claude E p []) with
  | Ret true => true
  | _ => false
  end.

(** The attribute reads of a process raise nothing but the three tolerated
    kinds. *)
Definition reads_tolerated {config} (E : env config) (p : pid) : Prop :=
  forall e, proc_name E p = Err e \/ proc_cmdline E p = Err e ->
            is_psutil_tolerated e = true.

(** An environment given by its process table; the other collaborators
    answer quietly. *)
Definition table_env (platform : string) (self : pid) (procs : list pid)
    (name : pid -> result string) (cmdline : pid -> result (list string))
    (exe : pid -> result string) (parent : pid -> result (option pid)) : env unit :=
  mkEnv platform "python3" ["autoapprove_server.py"] self procs
    name cmdline exe parent
    (fun _ => Ok []) (fun _ => Ok tt) (fun _ => Ok tt)
    (fun ps _ => Ok (ps, []))
    (fun _ => Ok tt) (fun _ => Ok tt)
    (fun _ => Ok 0) (fun _ => Ok tt)
    (fun _ => Ok false) (fun _ => Ok tt) (fun _ _ => Ok tt) (Ok tt)
    tt (fun _ => Ok []).

(** A Linux table of four processes: the name of 1 cannot be read, 2 is a
    shell, 3 is a zombie, 4 is the app. *)
Definition four_procs_env : env unit :=
  table_env "linux" 2 [1; 2; 3; 4]
    (fun p => if p =? 1 then Err AccessDenied
              else if p =? 2 then Ok "bash"
              else if p =? 3 then Ok "defunct"
              else Ok "Claude")
    (fun p => if p =? 3 then Err ZombieProcess
              else if p =? 4 then Ok ["/opt/Claude/claude"; "--no-sandbox"]
              else Ok ["-bash"])
    (fun _ => Ok "/usr/bin/bash")
    (fun _ => Ok None).

(** A loop terminates when some number of iterations is enough for it to
    return or raise. *)
Definition terminates {A} (loop : nat -> M A) : Prop :=
  exists fuel, fst (loop fuel []) <> Diverge.

(** The parent chain of [p] ends within [n] steps: at a process with no
    parent, or at a process whose parent cannot be read. *)
Fixpoint chain_ends_within {config} (E : env config) (n : nat) (p : pid) : bool :=
  match proc_parent E p with
  | Ok None => true
  | Err _ => true
  | Ok (Some q) =>
      match n with
      | O => false
      | S n' => chain_ends_within E n' q
      end
  end.

(** A process that is its own parent. *)
Definition self_parent_env : env unit :=
  table_env "linux" 1 [1]
    (fun _ => Ok "python3") (fun _ => Ok ["python3"; "autoapprove_server.py"])
    (fun _ => Ok "/usr/bin/python3")
    (fun _ => Ok (Some 1)).

(** The server (10) is a child of a system process (1) whose executable path
    and name it is not allowed to read. *)
Definition denied_parent_env : env unit :=
  table_env "linux" 10 [1; 10]
    (fun p => if p =? 1 then Err AccessDenied else Ok "python3")
    (fun _ => Ok ["python3"; "autoapprove_server.py"])
    (fun p => if p =? 1 then Err AccessDenied else Ok "/usr/bin/python3")
    (fun p => if p =? 1 then Ok None else Ok (Some 1)).

(** The server (10) is a child of the app (5), a child of launchd (1). *)
Definition app_child_env : env unit :=
  table_env "darwin" 10 [1; 5; 10]
    (fun p => if p =? 1 then Ok "launchd" else if p =? 5 then Ok "Claude" else Ok "python3")
    (fun _ => Ok [])
    (fun p => if p =? 5 then Ok "/Applications/Claude.app/Contents/MacOS/Claude"
              else Ok "/usr/bin/python3")
    (fun p => if p =? 1 then Ok None else if p =? 5 then Ok (Some 1) else Ok (Some 5)).

Definition is_ok {A} (r : result A) : bool :=
  match r with
  | Ok _ => true
  | Err _ => false
  end.

(** A valid match, on what the environment answers and not on a run of the
    program: the name of the process is read, and the name or the arguments
    identify the app.  A process whose name cannot be read is none, and so is
    one whose name does not identify the app and whose command line cannot be
    read. *)
Definition readable_match {config} (E : env config) (p : pid) : bool :=
  is_ok (proc_name E p) && app_identifying E p.

(** The platform's own quit command, where there is one. *)
Definition native_quit_command {config} (E : env config) : option (list string) :=
  if String.eqb (sys_platform E) "darwin" then Some osascript_quit
  else if String.eqb (sys_platform E) "win32" then Some taskkill_tree
  else None.

(** The spec's steps 3 to 5 complete: the children are enumerated, every
    child and then the parent take the terminate signal, the wait returns, and
    every process still alive takes the kill signal. *)
Definition steps_complete {config} (E : env config) (proc : pid) : bool :=
  match proc_children E proc with
  | Err _ => false
  | Ok children =>
      forallb (fun c => is_ok (proc_terminate E c)) children
      && is_ok (proc_terminate E proc)
      && match wait_procs E (proc :: children) 5 with
         | Err _ => false
         | Ok (_, alive) => forallb (fun p => is_ok (proc_kill E p)) alive
         end
  end.

(** The events of steps 3 to 5 when they complete, in their order. *)
Definition termination_events (proc : pid) (children alive : list pid) : trace :=
  EChildren proc
  :: flat_map (fun c => [Eprint (MsgTerminatingChild c); ETerminate c]) children
  ++ [Eprint (MsgTerminatingMain proc); ETerminate proc;
      EWaitProcs (proc :: children) 5]
  ++ match alive with
     | [] => []
     | _ :: _ => Eprint (MsgForceKilling alive) :: map EKill alive
     end.

(** What psutil raises is an [Exception]: its calls do not raise
    [SystemExit]. *)
Definition psutil_raises_Exceptions {config} (E : env config) : Prop :=
  forall e,
    (exists p, proc_children E p = Err e \/ proc_terminate E p = Err e
               \/ proc_kill E p = Err e)
    \/ (exists ps timeout, wait_procs E ps timeout = Err e) ->
    is_Exception e = true.

(** The process tree and what signals and waits answer, put in an
    environment. *)
Definition with_tree {config} (E : env config)
    (children : pid -> result (list pid))
    (terminate kill : pid -> result unit)
    (wait : list pid -> Z -> result (list pid * list pid)) : env config :=
  mkEnv (sys_platform E) (sys_executable E) (sys_argv E) (os_getpid E)
    (process_iter E) (proc_name E) (proc_cmdline E) (proc_exe E) (proc_parent E)
    children terminate kill wait
    (subprocess_run E) (subprocess_Popen E) (os_fork E) (os_call E)
    (is_port_open E) (start_claude E) (inject_script E) (mcp_run E)
    (claude_config E) (get_trusted_tools E).

(** Linux: the server (10) is a child of the app (5, named claude), which has
    a renderer (11) and the server as children; the renderer does not exit
    within the wait. *)
Definition linux_tree_env : env unit :=
  with_tree
    (table_env "linux" 10 [1; 5; 10; 11]
       (fun p => if p =? 1 then Ok "systemd" else if p =? 5 then Ok "claude"
                 else if p =? 11 then Ok "claude" else Ok "python3")
       (fun _ => Ok [])
       (fun p => if p =? 5 then Ok "/opt/Claude/claude" else Ok "/usr/bin/python3")
       (fun p => if p =? 1 then Ok None else if p =? 5 then Ok (Some 1) else Ok (Some 5)))
    (fun p => if p =? 5 then Ok [11; 10] else Ok [])
    (fun _ => Ok tt) (fun _ => Ok tt)
    (fun ps _ => Ok ([5; 10], [11])).

(** [quiet] holds of the events other than the injection and the start of the
    Control Server.  A computation keeps a trace quiet when it adds no such
    event. *)
Definition quiet (ev : event) : Prop :=
  match ev with
  | EMcpRun | EInjectScript _ => False
  | _ => True
  end.

Definition keeps_quiet {A} (m : M A) : Prop :=
  forall t, Forall quiet t -> Forall quiet (snd (m t)).

(** The collaborators of [main] and of the tool, put in an environment. *)
Definition with_collaborators {config} (E : env config)
    (port_open : Z -> result bool) (start : Z -> result unit)
    (inject : config -> Z -> result unit) (tools : config -> result (list string))
    : env config :=
  mkEnv (sys_platform E) (sys_executable E) (sys_argv E) (os_getpid E)
    (process_iter E) (proc_name E) (proc_cmdline E) (proc_exe E) (proc_parent E)
    (proc_children E) (proc_terminate E) (proc_kill E) (wait_procs E)
    (subprocess_run E) (subprocess_Popen E) (os_fork E) (os_call E)
    port_open start inject (mcp_run E) (claude_config E) tools.

(** Linux, no app running: the server (10) was started from a shell (7). *)
Definition no_app_env : env unit :=
  table_env "linux" 10 [1; 7; 10]
    (fun p => if p =? 1 then Ok "systemd" else if p =? 7 then Ok "bash" else Ok "python3")
    (fun p => if p =? 10 then Ok ["python3"; "autoapprove_server.py"] else Ok [])
    (fun p => if p =? 10 then Ok "/usr/bin/python3" else Ok "/usr/bin/bash")
    (fun p => if p =? 1 then Ok None else if p =? 7 then Ok (Some 1) else Ok (Some 7)).

(** The same, with the app already listening on the debugger port. *)
Definition listening_env : env unit :=
  with_collaborators no_app_env
    (fun _ => Ok true) (fun _ => Ok tt) (fun _ _ => Ok tt) (fun _ => Ok []).

(** A configuration with three trusted tools. *)
Definition three_tools_env : env unit :=
  with_collaborators no_app_env
    (fun _ => Ok true) (fun _ => Ok tt) (fun _ _ => Ok tt)
    (fun _ => Ok ["read_file"; "list_directory"; "search_files"]).

(** What [main] logs and calls before [kill_claude_process] when the probe is
    false. *)
Definition before_kill (args : Args) : trace :=
  [Eprint (MsgStarting (port args)); EIsPortOpen (port args);
   Eprint (MsgNotListening (port args)); Eprint MsgAttemptTerminate].

(** What the daemonized child has logged and called, from its entry in [main]
    to the call of [main] again: the fork of start_in_background and what
    daemonize does. *)
Definition daemon_round (args : Args) : trace :=
  [Eprint (MsgStarting (port args)); EFork;
   EFork; EChdir "/"; ESetsid; EUmask 0; EFork; EFlushStd; ERedirectStd].

(** * The vocabulary of the further properties *)

(** The tests of the two parent-chain walks, on what the environment
    answers: the executable path is the bundle binary; the name, in lower
    case, is that of the app.  A read that fails matches nothing. *)
Definition exe_matches {config} (E : env config) (q : pid) : bool :=
  match proc_exe E q with
  | Ok path => contains "Contents/MacOS/Claude" path
  | Err _ => false
  end.

Definition name_matches {config} (E : env config) (q : pid) : bool :=
  match proc_name E q with
  | Ok name => (String.eqb (lower name) "claude" || String.eqb (lower name) "claude.exe")%bool
  | Err _ => false
  end.

(** The executable path of [q] is read, or the read raises one of the three
    tolerated kinds. *)
Definition exe_tolerated {config} (E : env config) (q : pid) : Prop :=
  forall e, proc_exe E q = Err e -> is_psutil_tolerated e = true.

(** The process [p] and its ancestors, nearest first, as far as [n] parents
    up while the parent is read. *)
Fixpoint ancestors {config} (E : env config) (n : nat) (p : pid) : list pid :=
  p :: match n with
       | O => []
       | S n' =>
           match proc_parent E p with
           | Ok (Some q) => ancestors E n' q
           | _ => []
           end
       end.

(** The whole parent chain of [p], nearest first, when it reaches a process
    with no parent within [n] steps and every parent is read. *)
Fixpoint lineage {config} (E : env config) (n : nat) (p : pid) : option (list pid) :=
  match proc_parent E p with
  | Ok None => Some [p]
  | Ok (Some q) =>
      match n with
      | O => None
      | S n' => option_map (cons p) (lineage E n' q)
      end
  | Err _ => None
  end.

(** The events that read the process table and nothing else. *)
Definition is_query (ev : event) : Prop :=
  match ev with
  | EProcessIter | EGetpid | EName _ | ECmdline _ | EExe _ | EParent _ => True
  | _ => False
  end.

(** The events of the Terminator: the queries, the native quit command, the
    signals, the wait and the log lines. *)
Definition is_terminator_event (ev : event) : Prop :=
  match ev with
  | EProcessIter | EGetpid | EName _ | ECmdline _ | EExe _ | EParent _
  | EChildren _ | ETerminate _ | EKill _ | EWaitProcs _ _
  | ESubprocessRun _ | Eprint _ => True
  | _ => False
  end.

(** A computation adds events to the history, and only events of [P]. *)
Definition emits_only (P : event -> Prop) {A} (m : M A) : Prop :=
  forall t, exists evs, snd (m t) = t ++ evs /\ Forall P evs.

(** What [main] logs after the call of start_claude, by its answer. *)
Definition launch_log (args : Args) (r : result unit) : trace :=
  match r with
  | Ok _ => []
  | Err e =>
      if is_TimeoutError e then [Eprint (MsgFailedConnect (port args))]
      else if is_Exception e then [Eprint (MsgErrorStarting e)]
      else []
  end.


(** What the Terminator logs and calls for the children [pre], all
    signalled, and the child [x] whose signal raises. *)
Definition children_signalled (pre : list pid) (x : pid) : trace :=
  flat_map (fun c => [Eprint (MsgTerminatingChild c); ETerminate c]) pre
  ++ [Eprint (MsgTerminatingChild x); ETerminate x].

(** What daemonize calls in the process that leaves it. *)
Definition daemonize_events : trace :=
  [EFork; EChdir "/"; ESetsid; EUmask 0; EFork; EFlushStd; ERedirectStd].

(** The subprocess calls and the forks, put in an environment. *)
Definition with_os {config} (E : env config) (platform : string)
    (run popen : list string -> result unit) (fork_answer : trace -> result Z)
    : env config :=
  mkEnv platform (sys_executable E) (sys_argv E) (os_getpid E)
    (process_iter E) (proc_name E) (proc_cmdline E) (proc_exe E) (proc_parent E)
    (proc_children E) (proc_terminate E) (proc_kill E) (wait_procs E)
    run popen fork_answer (os_call E)
    (is_port_open E) (start_claude E) (inject_script E) (mcp_run E)
    (claude_config E) (get_trusted_tools E).


(** Linux: the name of process 2 cannot be read, for a reason that is none of
    the three tolerated kinds; process 3 is the app. *)
Definition oserror_env : env unit :=
  table_env "linux" 1 [1; 2; 3]
    (fun p => if p =? 1 then Ok "systemd" else if p =? 2 then Err OSError else Ok "Claude")
    (fun _ => Ok [])
    (fun _ => Ok "/usr/bin/true")
    (fun _ => Ok None).


(** Linux: the app (5) has three children, the renderer (11), a helper (12)
    that has exited already, and the server (10). *)
Definition gone_child_env : env unit :=
  with_tree linux_tree_env
    (fun p => if p =? 5 then Ok [11; 12; 10] else Ok [])
    (fun p => if p =? 12 then Err NoSuchProcess else Ok tt)
    (fun _ => Ok tt)
    (fun ps _ => Ok (ps, [])).

(** The process is the parent of every fork; every fork fails. *)
Definition fork_parent_env : env unit :=
  with_os no_app_env "linux" (fun _ => Ok tt) (fun _ => Ok tt) (fun _ => Ok 4242).

Definition fork_fails_env : env unit :=
  with_os no_app_env "linux" (fun _ => Ok tt) (fun _ => Ok tt) (fun _ => Err OSError).

(** Windows. *)
Definition windows_env : env unit :=
  with_os no_app_env "win32" (fun _ => Ok tt) (fun _ => Ok tt) (fun _ => Ok 0).

(** The launch times out. *)
Definition launch_timeout_env : env unit :=
  with_collaborators no_app_env
    (fun _ => Ok false) (fun _ => Err TimeoutError) (fun _ _ => Ok tt) (fun _ => Ok []).

(** macOS: the server (10) is a child of the app (5), and the parent chain
    of the app comes back to the server. *)
Definition cyclic_app_env : env unit :=
  table_env "darwin" 10 [5; 10]
    (fun p => if p =? 5 then Ok "Claude" else Ok "python3")
    (fun _ => Ok [])
    (fun p => if p =? 5 then Ok "/Applications/Claude.app/Contents/MacOS/Claude"
              else Err AccessDenied)
    (fun p => if p =? 5 then Ok (Some 10) else Ok (Some 5)).

(** Linux: the server (10) is a child of a helper (6, named claude), a child
    of the app (5, named Claude), a child of systemd (1). *)
Definition nested_claude_env : env unit :=
  table_env "linux" 10 [1; 5; 6; 10]
    (fun p => if p =? 1 then Ok "systemd" else if p =? 5 then Ok "Claude"
              else if p =? 6 then Ok "claude" else Ok "python3")
    (fun _ => Ok [])
    (fun p => if p =? 10 then Ok "/usr/bin/python3" else Ok "/opt/Claude/claude")
    (fun p => if p =? 1 then Ok None else if p =? 5 then Ok (Some 1)
              else if p =? 6 then Ok (Some 5) else Ok (Some 6)).

(** What [main] does after the call of start_claude, by its answer: the two
    [except] clauses end normally, anything else goes through. *)
Definition launch_outcome (r : result unit) : outcome unit :=
  match r with
  | Ok _ => Ret tt
  | Err e =>
      if is_TimeoutError e then Ret tt
      else if is_Exception e then Ret tt
      else Raise e
  end.

(** Linux: the server (10) was started from a shell (7) that exits while the
    chain is walked: its parent cannot be read any more. *)
Definition parent_gone_env : env unit :=
  table_env "linux" 10 [7; 10]
    (fun p => if p =? 7 then Ok "bash" else Ok "python3")
    (fun _ => Ok [])
    (fun p => if p =? 7 then Err NoSuchProcess else Ok "/usr/bin/python3")
    (fun p => if p =? 7 then Err NoSuchProcess else Ok (Some 7)).

(** * Verification *)

(** ** Substrings of a printed command line *)

Lemma prefix_lprefix (p s : string) :
  prefix p s = lprefix (list_ascii_of_string p) (list_ascii_of_string s).
Proof.
  revert s; induction p as [|a p IH]; intros [|b s]; simpl; try reflexivity.
  destruct (ascii_dec a b) as [->|Hne].
  - now rewrite Ascii.eqb_refl, IH.
  - apply Ascii.eqb_neq in Hne. now rewrite Hne.
Qed.

Lemma contains_lcontains (p s : string) :
  contains p s = lcontains (list_ascii_of_string p) (list_ascii_of_string s).
Proof.
  induction s as [|b s IH].
  - cbn [contains]. now rewrite prefix_lprefix.
  - cbn [contains lcontains list_ascii_of_string].
    now rewrite IH, prefix_lprefix.
Qed.

Lemma lcontains_skip (c0 : ascii) (ps : list ascii) (c : ascii) (l : list ascii) :
  c <> c0 -> lcontains (c0 :: ps) (c :: l) = lcontains (c0 :: ps) l.
Proof.
  intros Hne. cbn [lcontains lprefix].
  assert (Ascii.eqb c0 c = false) as -> by (apply Ascii.eqb_neq; congruence).
  reflexivity.
Qed.

Lemma lcontains_skip_all (c0 : ascii) (ps r l : list ascii) :
  ~ In c0 r -> lcontains (c0 :: ps) (r ++ l) = lcontains (c0 :: ps) l.
Proof.
  induction r as [|c r IH]; intros Hn; [reflexivity|].
  cbn [app]. rewrite lcontains_skip.
  - apply IH. intros H; apply Hn; now right.
  - intros ->. apply Hn; now left.
Qed.

(** What [repr] does with one character: it copies it, or it writes a
    backslash and characters among which there is no capital C; a plain
    character is copied. *)
Lemma repr_char_cases (q c : ascii) :
  is_quote q ->
  repr_char q c = [c] \/
  (plain_char c = false /\
   exists r, repr_char q c = backslash :: r /\ ~ In "C"%char r).
Proof.
  intros [-> | ->];
    destruct c as [[] [] [] [] [] [] [] []];
    first [ left; reflexivity
          | right; split; [reflexivity|];
            eexists; split; [reflexivity|];
            cbv; intros H;
            repeat (destruct H as [H|H]; [discriminate H|]); exact H ].
Qed.

Lemma plain_char_not (p : ascii) :
  plain_char p = true ->
  p <> single_quote /\ p <> double_quote /\ p <> backslash.
Proof.
  unfold plain_char. intros H.
  apply negb_true_iff in H.
  repeat (apply orb_false_iff in H; destruct H as [H ?]).
  repeat split; intros ->; rewrite Ascii.eqb_refl in *; discriminate.
Qed.

Lemma lprefix_repr (q : ascii) (ps s tail : list ascii) :
  is_quote q -> forallb plain_char ps = true ->
  lprefix ps (flat_map (repr_char q) s ++ q :: tail) = lprefix ps s.
Proof.
  intros Hq. revert s.
  induction ps as [|p ps IH]; intros s Hps; [reflexivity|].
  cbn [forallb] in Hps. apply andb_true_iff in Hps. destruct Hps as [Hp Hps].
  destruct (plain_char_not p Hp) as (Hsq & Hdq & Hbs).
  destruct s as [|c s].
  - cbn. assert (Ascii.eqb p q = false) as ->; [|reflexivity].
    apply Ascii.eqb_neq. destruct Hq as [-> | ->]; assumption.
  - cbn [flat_map].
    destruct (repr_char_cases q c Hq) as [-> | (Hc & r & -> & _)].
    + cbn [app lprefix]. now rewrite IH.
    + cbn [app lprefix].
      assert (Ascii.eqb p backslash = false) as -> by now apply Ascii.eqb_neq.
      assert (Ascii.eqb p c = false) as ->; [|reflexivity].
      apply Ascii.eqb_neq. intros ->. congruence.
Qed.

Lemma lcontains_repr (q : ascii) (ps s tail : list ascii) :
  is_quote q -> forallb plain_char ps = true ->
  lcontains ("C"%char :: ps) (flat_map (repr_char q) s ++ q :: tail)
  = lcontains ("C"%char :: ps) s || lcontains ("C"%char :: ps) tail.
Proof.
  intros Hq Hps.
  assert (Hq' : q <> "C"%char) by (destruct Hq as [-> | ->]; discriminate).
  induction s as [|c s IH].
  - cbn [flat_map app]. now rewrite lcontains_skip.
  - cbn [flat_map].
    destruct (repr_char_cases q c Hq) as [Hc | (Hc & r & Hr & Hn)]; rewrite Hc || rewrite Hr.
    + cbn [app lcontains lprefix].
      rewrite IH, (lprefix_repr q ps s tail Hq Hps).
      now rewrite orb_assoc.
    + rewrite <- app_assoc.
      rewrite (lcontains_skip_all "C"%char ps (backslash :: r)).
      * rewrite IH. rewrite lcontains_skip; [reflexivity|].
        intros ->. discriminate Hc.
      * intros [H|H]; [discriminate H | exact (Hn H)].
Qed.

Lemma repr_quote_is_quote (s : list ascii) : is_quote (repr_quote s).
Proof.
  unfold repr_quote, is_quote.
  destruct (_ && _)%bool; [now right | now left].
Qed.

Lemma lcontains_repr_str (ps s tail : list ascii) :
  forallb plain_char ps = true ->
  lcontains ("C"%char :: ps) (repr_str s ++ tail)
  = lcontains ("C"%char :: ps) s || lcontains ("C"%char :: ps) tail.
Proof.
  intros Hps. unfold repr_str.
  pose proof (repr_quote_is_quote s) as Hq.
  set (q := repr_quote s) in *.
  assert (Hq' : q <> "C"%char) by (destruct Hq as [-> | ->]; discriminate).
  cbn [app]. rewrite lcontains_skip by exact Hq'.
  rewrite <- app_assoc. cbn [app].
  now rewrite lcontains_repr.
Qed.

Lemma lcontains_repr_items (ps : list ascii) (l : list (list ascii)) (tail : list ascii) :
  forallb plain_char ps = true ->
  lcontains ("C"%char :: ps) (repr_items l ++ tail)
  = existsb (lcontains ("C"%char :: ps)) l || lcontains ("C"%char :: ps) tail.
Proof.
  intros Hps. induction l as [|s l IH]; [reflexivity|].
  destruct l as [|s' l].
  - cbn [repr_items existsb]. rewrite lcontains_repr_str by exact Hps.
    now rewrite orb_false_r.
  - change (repr_items (s :: s' :: l))
      with (repr_str s ++ [","%char; " "%char] ++ repr_items (s' :: l)).
    rewrite <- !app_assoc. rewrite lcontains_repr_str by exact Hps.
    cbn [app]. rewrite !lcontains_skip by discriminate.
    rewrite IH. cbn [existsb]. now rewrite !orb_assoc.
Qed.

(** The test [pat in str(cmdline)] of the program says that an argument of
    the command line contains [pat]: no match of such a pattern starts inside
    an escape or runs over a quote. *)
Lemma contains_str_list (pat : string) (cmdline : list string) :
  app_pattern pat ->
  contains pat (str_list cmdline) = existsb (contains pat) cmdline.
Proof.
  intros (ps & Hpat & Hps). unfold str_list.
  rewrite contains_lcontains, list_ascii_of_string_of_list_ascii, Hpat.
  rewrite lcontains_skip by discriminate.
  rewrite lcontains_repr_items by exact Hps.
  cbn [lcontains lprefix]. cbn [Ascii.eqb Bool.eqb andb orb]. rewrite orb_false_r.
  induction cmdline as [|a l IH]; [reflexivity|].
  cbn [map existsb]. now rewrite IH, contains_lcontains, Hpat.
Qed.

Lemma app_pattern_Claude : app_pattern "Claude".
Proof. eexists; split; reflexivity. Qed.

Lemma app_pattern_Claude_app : app_pattern "Claude.app".
Proof. eexists; split; reflexivity. Qed.

Lemma app_pattern_Claude_exe : app_pattern "Claude.exe".
Proof. eexists; split; reflexivity. Qed.

(** ** The Process Locator: find_claude_process *)

Example str_list_cmdline :
  str_list ["/opt/Claude/claude"; "--no-sandbox"]
  = "['/opt/Claude/claude', '--no-sandbox']".
Proof. reflexivity. Qed.

Example str_list_escapes :
  str_list [String (ascii_of_nat 9) "it's"; String backslash "x"]
  = String.append "["
      (String double_quote
         (String.append "\tit's"
            (String double_quote ", '\\x']"))).
Proof. reflexivity. Qed.

Example find_claude_process_four_procs :
  find_claude_process four_procs_env [] =
  (Ret (Some 4),
   [EProcessIter; EName 1; EName 2; ECmdline 2; EName 3; ECmdline 3; EName 4]).
Proof. reflexivity. Qed.

Ltac unfold_prog :=
  unfold name_of, cmdline_of, exe_of, parent_of, eprint, os_do, fork, sys_exit,
    on_psutil_error, on_Exception, bind, try_except, call, call_h, ret, raise, diverge in *.

Lemma is_claude_fst {config} (E : env config) (p : pid) (t : trace) :
  fst (is_claude E p t) = fst (is_claude E p []).
Proof.
  unfold is_claude.
  repeat match goal with |- context [if ?b then _ else _] => destruct b end;
    unfold_prog;
    repeat match goal with
           | |- context [match ?r with Ok _ => _ | Err _ => _ end] => destruct r
           | |- context [if ?b then _ else _] => destruct b
           end; reflexivity.
Qed.

Lemma is_claude_outcome {config} (E : env config) (p : pid) (t : trace) :
  match fst (is_claude E p t) with
  | Ret b => b = true -> app_identifying E p = true
  | Raise e => proc_name E p = Err e \/ proc_cmdline E p = Err e
  | Diverge => False
  end.
Proof.
  unfold is_claude, app_identifying.
  destruct (String.eqb (sys_platform E) "darwin");
    [|destruct (String.eqb (sys_platform E) "win32");
      [|destruct (startswith (sys_platform E) "linux")]];
    unfold_prog;
    try (destruct (proc_name E p) as [n|e] eqn:Hn; cbn [fst name_has];
         [|now left];
         match goal with |- context [if ?b then _ else _] => destruct b eqn:Hb end;
         cbn [fst orb]; [reflexivity|];
         destruct (proc_cmdline E p) as [l|e] eqn:Hc; cbn [fst cmdline_mentions];
         [|now right]).
  - rewrite contains_str_list by exact app_pattern_Claude_app. trivial.
  - rewrite contains_str_list by exact app_pattern_Claude_exe. trivial.
  - rewrite contains_str_list by exact app_pattern_Claude. trivial.
  - cbn. discriminate.
Qed.

Lemma scan_processes_find {config} (E : env config) (procs : list pid) (t : trace) :
  (forall p, In p procs -> reads_tolerated E p) ->
  fst (scan_processes E procs t) = Ret (find (valid_match E) procs).
Proof.
  revert t. induction procs as [|p rest IH]; intros t Htol; [reflexivity|].
  cbn [scan_processes find]. unfold valid_match.
  rewrite <- (is_claude_fst E p t).
  pose proof (is_claude_outcome E p t) as Hout.
  unfold bind, try_except.
  destruct (is_claude E p t) as [[b|e|] t'] eqn:Hrun; cbn [fst] in *.
  - destruct b; [reflexivity|]. apply IH. intros q Hq. apply Htol. now right.
  - unfold on_psutil_error. rewrite (Htol p (or_introl eq_refl) e Hout).
    unfold ret. apply IH. intros q Hq. apply Htol. now right.
  - contradiction.
Qed.

Lemma scan_processes_sound {config} (E : env config) (procs : list pid) (t : trace) (p : pid) :
  fst (scan_processes E procs t) = Ret (Some p) ->
  In p procs /\ app_identifying E p = true.
Proof.
  revert t. induction procs as [|q rest IH]; intros t; [discriminate|].
  cbn [scan_processes]. unfold bind, try_except.
  pose proof (is_claude_outcome E q t) as Hout.
  destruct (is_claude E q t) as [[b|e|] t'] eqn:Hrun; cbn [fst] in *.
  - destruct b.
    + unfold ret. cbn. intros [= <-]. split; [now left | now apply Hout].
    + intros H. destruct (IH _ H). split; [now right | assumption].
  - unfold on_psutil_error. destruct (is_psutil_tolerated e).
    + unfold ret. intros H. destruct (IH _ H). split; [now right | assumption].
    + discriminate.
  - contradiction.
Qed.

Lemma find_claude_process_scan {config} (E : env config) (t : trace) :
  find_claude_process E t = scan_processes E (process_iter E) (t ++ [EProcessIter]).
Proof. reflexivity. Qed.

(** C8: a process of the scanned table whose name and command line carry no
    app-identifying substring for the current platform (macOS: name equal to
    Claude, or Claude.app in the command line; Windows: Claude.exe in the name
    or the command line; Linux: Claude in the name or the command line) is
    never what find_claude_process returns. *)
Theorem find_claude_process_never_selects_non_app
    {config} (E : env config) (t : trace) (p : pid) :
  app_identifying E p = false ->
  fst (find_claude_process E t) <> Ret (Some p).
Proof.
  intros Hno Hret. rewrite find_claude_process_scan in Hret.
  apply scan_processes_sound in Hret. destruct Hret as [_ Hid].
  congruence.
Qed.

Lemma find_claude_process_never_selects_non_app_witness :
  app_identifying four_procs_env 2 = false /\
  fst (find_claude_process four_procs_env []) <> Ret (Some 2).
Proof.
  split.
  - reflexivity.
  - apply (find_claude_process_never_selects_non_app four_procs_env [] 2).
    reflexivity.
Defined.

Lemma valid_match_spec {config} (E : env config) (p : pid) :
  valid_match E p = is_ok (proc_name E p) && app_identifying E p.
Proof.
  unfold valid_match, is_claude, app_identifying.
  destruct (String.eqb (sys_platform E) "darwin");
    [|destruct (String.eqb (sys_platform E) "win32");
      [|destruct (startswith (sys_platform E) "linux")]];
    unfold_prog;
    try (destruct (proc_name E p) as [n|e]; cbn [fst name_has is_ok andb];
         [|reflexivity];
         match goal with |- context [if ?b then _ else _] => destruct b end;
         cbn [fst orb]; [reflexivity|];
         destruct (proc_cmdline E p) as [l|e]; cbn [fst cmdline_mentions];
         [|reflexivity]).
  - rewrite contains_str_list by exact app_pattern_Claude_app.
    now destruct (existsb _ l).
  - rewrite contains_str_list by exact app_pattern_Claude_exe.
    now destruct (existsb _ l).
  - rewrite contains_str_list by exact app_pattern_Claude.
    now destruct (existsb _ l).
  - cbn. now rewrite andb_false_r.
Qed.

Lemma find_pointwise {A} (f g : A -> bool) (l : list A) :
  (forall x, f x = g x) -> find f l = find g l.
Proof.
  intros Hfg. induction l as [|x l IH]; [reflexivity|].
  cbn. now rewrite Hfg, IH.
Qed.

(** C9: when the attribute reads of some candidates raise one of the three
    tolerated kinds, find_claude_process skips those candidates and completes
    the scan.  When the table holds a valid match (a process whose name is
    read and whose name or arguments identify the app) it returns a valid
    match of the table; it never returns a candidate that is not one, so none
    whose name read raises; and when every other candidate throws or does not
    match, it returns that one valid match. *)
Theorem find_claude_process_skips_failing_reads
    {config} (E : env config) (t : trace) (p : pid) :
  (forall q, In q (process_iter E) -> reads_tolerated E q) ->
  In p (process_iter E) ->
  readable_match E p = true ->
  (exists q, fst (find_claude_process E t) = Ret (Some q)
             /\ In q (process_iter E) /\ readable_match E q = true)
  /\ (forall q, readable_match E q = false ->
                fst (find_claude_process E t) <> Ret (Some q))
  /\ ((forall q, In q (process_iter E) -> q <> p -> readable_match E q = false) ->
      fst (find_claude_process E t) = Ret (Some p)).
Proof.
  intros Htol Hin Hvalid.
  assert (Hspec : forall q, valid_match E q = readable_match E q)
    by (intros q; apply valid_match_spec).
  rewrite find_claude_process_scan, scan_processes_find by exact Htol.
  rewrite (find_pointwise _ _ _ Hspec).
  destruct (find (readable_match E) (process_iter E)) as [q|] eqn:Hfind.
  - apply find_some in Hfind. destruct Hfind as [Hq Hvq].
    split; [|split].
    + exists q. auto.
    + intros r Hr [= ->]. congruence.
    + intros Hothers. f_equal. f_equal.
      destruct (Z.eq_dec q p) as [Heq|Hne]; [exact Heq|].
      rewrite (Hothers q Hq Hne) in Hvq. discriminate.
  - rewrite (find_none _ _ Hfind p Hin) in Hvalid. discriminate.
Qed.

Lemma find_claude_process_skips_failing_reads_witness :
  fst (find_claude_process four_procs_env []) = Ret (Some 4)
  /\ fst (find_claude_process four_procs_env []) <> Ret (Some 1).
Proof.
  assert (Htol : forall q, In q (process_iter four_procs_env) ->
                           reads_tolerated four_procs_env q).
  { intros q Hq e. cbn in Hq.
    destruct Hq as [<-|[<-|[<-|[<-|[]]]]]; cbn;
      intros [H|H]; inversion H; reflexivity. }
  assert (Hin : In 4 (process_iter four_procs_env)) by (cbn; tauto).
  destruct (find_claude_process_skips_failing_reads four_procs_env [] 4
              Htol Hin eq_refl) as (_ & Hskip & Hone).
  split.
  - apply Hone. intros q Hq Hne. cbn in Hq.
    destruct Hq as [<-|[<-|[<-|[<-|[]]]]]; try reflexivity.
    now elim Hne.
  - apply Hskip. reflexivity.
Defined.

(** ** The Process Locator: get_main_claude_process *)

Example get_main_claude_process_bundle_binary :
  get_main_claude_process app_child_env 4 [] =
  (Ret (Some 5), [EGetpid; EExe 10; EParent 10; EExe 5]).
Proof. reflexivity. Qed.

Example get_main_claude_process_last_named_ancestor :
  fst (get_main_claude_process linux_tree_env 4 []) = Ret (Some 5).
Proof. reflexivity. Qed.

Lemma walk_exe_self_parent (fuel : nat) (t : trace) :
  fst (walk_exe self_parent_env fuel (Some 1) t) = Diverge.
Proof.
  revert t. induction fuel as [|fuel IH]; intros t; [reflexivity|].
  cbn [walk_exe]. unfold_prog. cbn. apply IH.
Qed.

Lemma walk_name_self_parent (fuel : nat) (c : option pid) (t : trace) :
  fst (walk_name self_parent_env fuel (Some 1) c t) = Diverge.
Proof.
  revert c t. induction fuel as [|fuel IH]; intros c t; [reflexivity|].
  cbn [walk_name]. unfold_prog. cbn. apply IH.
Qed.

Ltac case_read :=
  match goal with
  | |- context [match proc_exe ?E ?p with _ => _ end] => destruct (proc_exe E p)
  | |- context [match proc_name ?E ?p with _ => _ end] => destruct (proc_name E p)
  | |- context [match proc_parent ?E ?p with _ => _ end] =>
      destruct (proc_parent E p) as [[?|]|?]
  | |- context [if is_psutil_tolerated ?e then _ else _] =>
      destruct (is_psutil_tolerated e)
  | |- context [if contains ?a ?b then _ else _] => destruct (contains a b)
  end; cbv beta iota.

Lemma walk_exe_chain_ends {config} (E : env config) (n : nat) :
  forall (fuel : nat) (p : pid) (t : trace),
    chain_ends_within E n p = true -> (n + 2 <= fuel)%nat ->
    fst (walk_exe E fuel (Some p) t) <> Diverge.
Proof.
  induction n as [|n IH]; intros fuel p t Hend Hfuel;
    (destruct fuel as [|fuel]; [lia|]);
    cbn [walk_exe chain_ends_within] in *; unfold_prog; revert Hend;
    repeat case_read; intros Hend;
    try discriminate Hend; try (cbn; discriminate);
    try (destruct fuel; [lia|cbn; discriminate]);
    (apply IH; [assumption|lia]).
Qed.

Lemma walk_name_chain_ends {config} (E : env config) (n : nat) :
  forall (fuel : nat) (p : pid) (c : option pid) (t : trace),
    chain_ends_within E n p = true -> (n + 2 <= fuel)%nat ->
    fst (walk_name E fuel (Some p) c t) <> Diverge.
Proof.
  induction n as [|n IH]; intros fuel p c t Hend Hfuel;
    (destruct fuel as [|fuel]; [lia|]);
    cbn [walk_name chain_ends_within] in *; unfold_prog; revert Hend;
    repeat case_read; intros Hend;
    try discriminate Hend; try (cbn; discriminate);
    try (destruct fuel; [lia|cbn; discriminate]);
    (apply IH; [assumption|lia]).
Qed.

Lemma get_main_claude_process_unfold {config} (E : env config) (fuel : nat) (t : trace) :
  get_main_claude_process E fuel t =
  match walk_exe E fuel (Some (os_getpid E)) (t ++ [EGetpid]) with
  | (Ret (Some p), t') => (Ret (Some p), t')
  | (Ret None, t') => walk_name E fuel (Some (os_getpid E)) None (t' ++ [EGetpid])
  | (Raise e, t') => (Raise e, t')
  | (Diverge, t') => (Diverge, t')
  end.
Proof.
  unfold get_main_claude_process, bind, call, call_h, ret.
  destruct (walk_exe E fuel (Some (os_getpid E)) (t ++ [EGetpid])) as [[[p|]|e|] t'];
    reflexivity.
Qed.

(** C4, as the code has it: both parent-chain walks of get_main_claude_process
    terminate for every starting process whose parent chain ends after
    finitely many steps, at a process with no parent (the starting process
    included) or at a parent that cannot be read. *)
Theorem parent_walks_terminate_on_finite_chain
    {config} (E : env config) (n : nat) (p : pid) :
  chain_ends_within E n p = true ->
  terminates (fun fuel => walk_exe E fuel (Some p))
  /\ terminates (fun fuel => walk_name E fuel (Some p) None)
  /\ (p = os_getpid E -> terminates (get_main_claude_process E)).
Proof.
  intros Hend. repeat split.
  - exists (n + 2)%nat. now apply walk_exe_chain_ends with (n := n).
  - exists (n + 2)%nat. now apply walk_name_chain_ends with (n := n).
  - intros ->. exists (n + 2)%nat.
    rewrite get_main_claude_process_unfold.
    pose proof (walk_exe_chain_ends E n (n + 2) (os_getpid E) ([] ++ [EGetpid])
                  Hend (le_n _)) as Hexe.
    destruct (walk_exe E (n + 2) (Some (os_getpid E)) ([] ++ [EGetpid]))
      as [[[q|]|e|] t']; cbn [fst] in *; try discriminate; try congruence.
    now apply walk_name_chain_ends with (n := n).
Qed.

Lemma parent_walks_terminate_on_finite_chain_witness :
  terminates (fun fuel => walk_exe app_child_env fuel (Some 10))
  /\ terminates (fun fuel => walk_name app_child_env fuel (Some 10) None)
  /\ (10 = os_getpid app_child_env -> terminates (get_main_claude_process app_child_env)).
Proof.
  apply (parent_walks_terminate_on_finite_chain app_child_env 2 10).
  reflexivity.
Defined.

(** C4, as the spec states it, fails: on a process that is its own parent
    (and whose executable path does not match) neither walk terminates, and
    neither does get_main_claude_process. *)
Lemma parent_walks_loop_on_self_parent :
  ~ terminates (fun fuel => walk_exe self_parent_env fuel (Some 1))
  /\ ~ terminates (fun fuel => walk_name self_parent_env fuel (Some 1) None)
  /\ ~ terminates (get_main_claude_process self_parent_env).
Proof.
  repeat split; intros [fuel H]; apply H.
  - apply walk_exe_self_parent.
  - apply walk_name_self_parent.
  - rewrite get_main_claude_process_unfold.
    change (os_getpid self_parent_env) with 1.
    pose proof (walk_exe_self_parent fuel ([] ++ [EGetpid])) as Hexe.
    destruct (walk_exe self_parent_env fuel (Some 1) ([] ++ [EGetpid])) as [o t'].
    cbn [fst] in Hexe. subst o. reflexivity.
Qed.

(** The first walk treats an executable path that cannot be read, for one of
    the three tolerated reasons, as the empty path: it goes on to the parent. *)
Lemma walk_exe_failed_read_is_empty_path
    {config} (E : env config) (fuel : nat) (p : pid) (e : exn) (t : trace) :
  proc_exe E p = Err e -> is_psutil_tolerated e = true ->
  walk_exe E (S fuel) (Some p) t =
  (parent <- parent_of E p ;; walk_exe E fuel parent) (t ++ [EExe p]).
Proof.
  intros Hexe Htol. cbn [walk_exe]. unfold_prog.
  rewrite Hexe, Htol. reflexivity.
Qed.

(** C2, where the code departs from it: the second walk of
    get_main_claude_process reads the name with no handler.  In
    [denied_parent_env] the first walk tolerates the executable path of
    process 1 that cannot be read, and the second walk lets the AccessDenied of
    its name out, through kill_claude_process as well. *)
Theorem get_main_claude_process_propagates_name_error :
  get_main_claude_process denied_parent_env 3 [] =
    (Raise AccessDenied,
     [EGetpid; EExe 10; EParent 10; EExe 1; EParent 1;
      EGetpid; EName 10; EParent 10; EName 1])
  /\ fst (kill_claude_process denied_parent_env 3 []) = Raise AccessDenied.
Proof. split; reflexivity. Qed.

(** ** The Process Terminator: kill_claude_process *)

Lemma for_each_calls {A} (body : A -> M unit) (sig : A -> result unit)
    (evs : A -> list event) :
  (forall x t, body x t = match sig x with
                          | Ok _ => (Ret tt, t ++ evs x)
                          | Err e => (Raise e, t ++ evs x)
                          end) ->
  forall l t,
    (forallb (fun x => is_ok (sig x)) l = true
     /\ for_each l body t = (Ret tt, t ++ flat_map evs l))
    \/ (forallb (fun x => is_ok (sig x)) l = false
        /\ exists x e t', In x l /\ sig x = Err e
                          /\ for_each l body t = (Raise e, t')).
Proof.
  intros Hbody. induction l as [|x l IH]; intros t.
  - left. split; [reflexivity|]. cbn. now rewrite app_nil_r.
  - cbn [for_each forallb flat_map]. unfold bind. rewrite Hbody.
    destruct (sig x) as [u|e] eqn:Hx; cbn [is_ok andb].
    + destruct (IH (t ++ evs x)) as [[Hall Hrun] | [Hall (y & e & t' & Hy & He & Hrun)]].
      * left. split; [exact Hall|]. now rewrite Hrun, app_assoc.
      * right. split; [exact Hall|]. exists y, e, t'. repeat split; auto. now right.
    + right. split; [reflexivity|]. exists x, e, (t ++ evs x). repeat split; auto. now left.
Qed.

Lemma terminate_tree_spec {config} (E : env config) (proc : pid) (t : trace) :
  psutil_raises_Exceptions E ->
  (steps_complete E proc = true
   /\ exists children gone alive,
        proc_children E proc = Ok children
        /\ wait_procs E (proc :: children) 5 = Ok (gone, alive)
        /\ terminate_tree E proc t = (Ret true, t ++ termination_events proc children alive))
  \/ (steps_complete E proc = false
      /\ exists e t', is_Exception e = true
                      /\ terminate_tree E proc t = (Raise e, t')).
Proof.
  intros Hexn.
  destruct (terminate_tree E proc t) as [o tfin] eqn:Hrun.
  unfold terminate_tree in Hrun. unfold steps_complete, termination_events.
  unfold bind at 1 in Hrun. unfold call at 1, call_h in Hrun.
  destruct (proc_children E proc) as [children|e] eqn:Hch.
  2:{ right. split; [reflexivity|]. exists e, tfin. split; [|congruence].
      apply Hexn. left. exists proc. now left. }
  unfold bind at 1 in Hrun.
  destruct (for_each_calls
              (fun child => eprint (MsgTerminatingChild child) ;;
                            call (ETerminate child) (proc_terminate E child))
              (fun c => proc_terminate E c)
              (fun c => [Eprint (MsgTerminatingChild c); ETerminate c])) with
    (l := children) (t := t ++ [EChildren proc])
    as [[Hall Hfor] | [Hall (x & e & t' & Hx & He & Hfor)]].
  { intros x t0. unfold_prog. destruct (proc_terminate E x) as [[]|?];
      now rewrite <- app_assoc. }
  2:{ right. rewrite Hall. split; [reflexivity|]. exists e, tfin.
      rewrite Hfor in Hrun. split; [|congruence].
      apply Hexn. left. exists x. auto. }
  rewrite Hfor in Hrun. rewrite Hall. cbn [andb].
  unfold bind at 1 in Hrun. unfold eprint at 1, call at 1, call_h in Hrun.
  unfold bind at 1 in Hrun. unfold call at 1, call_h in Hrun.
  destruct (proc_terminate E proc) as [u|e] eqn:Hterm; cbn [is_ok andb].
  2:{ right. split; [reflexivity|]. exists e, tfin. split; [|congruence].
      apply Hexn. left. exists proc. auto. }
  unfold bind at 1 in Hrun. unfold call at 1, call_h in Hrun. cbn [app] in Hrun.
  destruct (wait_procs E (proc :: children) 5) as [[gone alive]|e] eqn:Hwait.
  2:{ right. split; [reflexivity|]. exists e, tfin. split; [|congruence].
      apply Hexn. right. eauto. }
  cbn [snd] in Hrun. unfold bind at 1 in Hrun.
  destruct alive as [|a alive].
  - left. split; [reflexivity|]. exists children, gone, [].
    split; [reflexivity|]. split; [exact Hwait|].
    unfold ret in Hrun. rewrite <- Hrun. f_equal.
    rewrite <- !app_assoc. reflexivity.
  - unfold bind at 1 in Hrun. unfold eprint at 1, call at 1, call_h in Hrun.
    assert (Hkill : forall x t0,
               call (EKill x) (proc_kill E x) t0 =
               match proc_kill E x with
               | Ok _ => (Ret tt, t0 ++ [EKill x])
               | Err e => (Raise e, t0 ++ [EKill x])
               end)
      by (intros x t0; unfold_prog; now destruct (proc_kill E x) as [[]|?]).
    match type of Hrun with
    | context [for_each ?ps ?b ?t0] =>
        destruct (for_each_calls b (fun p => proc_kill E p) (fun p => [EKill p])
                    Hkill ps t0)
          as [[Hall' Hfor'] | [Hall' (x & e & t' & Hx & He & Hfor')]]
    end.
    + left. rewrite Hall'. split; [reflexivity|]. exists children, gone, (a :: alive).
      split; [reflexivity|]. split; [exact Hwait|]. rewrite Hfor' in Hrun. unfold ret in Hrun. rewrite <- Hrun.
      f_equal. rewrite <- !app_assoc. cbn [app].
      assert (Hmap : forall ps, flat_map (fun p => [EKill p]) ps = map EKill ps)
        by (intros ps; induction ps as [|y ps IH]; [reflexivity|]; cbn; now rewrite IH).
      now rewrite Hmap.
    + right. rewrite Hall'. split; [reflexivity|]. exists e, tfin.
      rewrite Hfor' in Hrun. split; [|congruence].
      apply Hexn. left. exists x. auto.
Qed.

Lemma native_quit_command_run {config} (E : env config) (argv : list string) (t : trace) :
  native_quit_command E = Some argv ->
  native_quit E t =
  match subprocess_run E argv with
  | Ok _ => (Ret true, t ++ [ESubprocessRun argv])
  | Err e =>
      if is_Exception e
      then (Ret false,
            (t ++ [ESubprocessRun argv])
            ++ [Eprint (if String.eqb (sys_platform E) "darwin"
                        then MsgAppleScriptFailed e else MsgTaskkillFailed e)])
      else (Raise e, t ++ [ESubprocessRun argv])
  end.
Proof.
  unfold native_quit_command, native_quit.
  destruct (String.eqb (sys_platform E) "darwin");
    [|destruct (String.eqb (sys_platform E) "win32")];
    intros [= <-]; unfold_prog;
    destruct (subprocess_run E _) as [[]|e]; try reflexivity;
    destruct (is_Exception e); reflexivity.
Qed.

(** C5: on macOS and Windows kill_claude_process returns true as soon as the
    native quit/kill subprocess invocation does not raise: nothing else is
    called, no process is looked for and no signal is sent.  Whatever else the
    run calls, it calls only after the native invocation raised. *)
Theorem kill_claude_process_native_quit
    {config} (E : env config) (fuel : nat) (argv : list string) (t : trace) :
  native_quit_command E = Some argv ->
  (subprocess_run E argv = Ok tt ->
   kill_claude_process E fuel t = (Ret true, t ++ [ESubprocessRun argv]))
  /\ (forall ev, In ev (snd (kill_claude_process E fuel t)) ->
                 ~ In ev t -> ev <> ESubprocessRun argv ->
                 exists e, subprocess_run E argv = Err e /\ is_Exception e = true).
Proof.
  intros Hcmd. pose proof (native_quit_command_run E argv t Hcmd) as Hquit.
  unfold kill_claude_process, bind.
  destruct (subprocess_run E argv) as [[]|e] eqn:Hrun.
  - rewrite Hquit. split; [reflexivity|].
    cbn [snd]. intros ev Hin Hold Hnew. exfalso.
    apply in_app_or in Hin. destruct Hin as [Hin|[<-|[]]]; auto.
  - split; [discriminate|].
    destruct (is_Exception e) eqn:Hexn.
    + intros ev _ _ _. exists e. auto.
    + rewrite Hquit. cbn [snd]. intros ev Hin Hold Hnew. exfalso.
      apply in_app_or in Hin. destruct Hin as [Hin|[<-|[]]]; auto.
Qed.

Lemma kill_claude_process_native_quit_witness :
  kill_claude_process app_child_env 3 [] = (Ret true, [ESubprocessRun osascript_quit]).
Proof.
  apply (proj1 (kill_claude_process_native_quit app_child_env 3 osascript_quit []
                  eq_refl)).
  reflexivity.
Defined.

(** C6: on the path without native quit.  When no target process is located
    kill_claude_process returns false.  Otherwise it enumerates the children,
    sends the terminate signal to each child and then to the parent, waits
    with the bound 5 for the parent and the children, kills every process
    still alive, and returns true exactly when these steps complete; an
    exception of a step is caught, logged last, and the result is false. *)
Theorem kill_claude_process_signal_path
    {config} (E : env config) (fuel : nat) (t t1 : trace) :
  psutil_raises_Exceptions E ->
  native_quit E t = (Ret false, t1) ->
  (forall t2, locate_claude E fuel t1 = (Ret None, t2) ->
              kill_claude_process E fuel t = (Ret false, t2))
  /\ (forall proc t2,
        locate_claude E fuel t1 = (Ret (Some proc), t2) ->
        fst (kill_claude_process E fuel t) = Ret (steps_complete E proc)
        /\ (steps_complete E proc = true ->
            exists children gone alive,
              proc_children E proc = Ok children
              /\ wait_procs E (proc :: children) 5 = Ok (gone, alive)
              /\ snd (kill_claude_process E fuel t)
                 = t2 ++ termination_events proc children alive)
        /\ (steps_complete E proc = false ->
            exists e t3,
              snd (kill_claude_process E fuel t) = t3 ++ [Eprint (MsgErrorKilling e)])).
Proof.
  intros Hexn Hquit. unfold kill_claude_process, bind. rewrite Hquit.
  split.
  - intros t2 ->. reflexivity.
  - intros proc t2 ->. unfold try_except.
    destruct (terminate_tree_spec E proc t2 Hexn)
      as [(Hok & children & gone & alive & Hch & Hwait & Hrun)
         | (Hok & e & t3 & He & Hrun)];
      rewrite Hrun, Hok.
    + split; [reflexivity|]. split; [|discriminate].
      intros _. exists children, gone, alive. auto.
    + unfold on_Exception. rewrite He. unfold_prog.
      split; [reflexivity|]. split; [discriminate|].
      intros _. exists e, t3. reflexivity.
Qed.

Lemma kill_claude_process_signal_path_witness :
  kill_claude_process linux_tree_env 4 [] =
  (Ret true,
   [EGetpid; EExe 10; EParent 10; EExe 5; EParent 5; EExe 1; EParent 1;
    EGetpid; EName 10; EParent 10; EName 5; EParent 5; EName 1; EParent 1]
   ++ termination_events 5 [11; 10] [11]).
Proof.
  assert (Hexn : psutil_raises_Exceptions linux_tree_env).
  { intros e [[p [H|[H|H]]] | [ps [timeout H]]]; cbn in H;
      try discriminate H.
    destruct (p =? 5); discriminate H. }
  destruct (proj2 (kill_claude_process_signal_path linux_tree_env 4 [] [] Hexn eq_refl)
              5 _ eq_refl) as (Hres & Htrace & _).
  destruct (Htrace eq_refl) as (children & gone & alive & Hch & Hwait & Hsnd).
  injection Hch as <-. injection Hwait as <- <-.
  rewrite (surjective_pairing (kill_claude_process linux_tree_env 4 [])).
  rewrite Hres, Hsnd. reflexivity.
Defined.

(** ** What a run never calls

    The lemmas follow the structure of the monad, then that of the program. *)

Section KeepsQuiet.

Context {A B : Type}.

Lemma keeps_quiet_ret (a : A) : keeps_quiet (ret a).
Proof. intros t Ht. exact Ht. Qed.

Lemma keeps_quiet_raise (e : exn) : keeps_quiet (@raise A e).
Proof. intros t Ht. exact Ht. Qed.

Lemma keeps_quiet_diverge : keeps_quiet (@diverge A).
Proof. intros t Ht. exact Ht. Qed.

Lemma keeps_quiet_call_h (ev : event) (r : trace -> result A) :
  quiet ev -> keeps_quiet (call_h ev r).
Proof.
  intros Hev t Ht. unfold call_h.
  destruct (r t); cbn [snd]; apply Forall_app; split; auto.
Qed.

Lemma keeps_quiet_call (ev : event) (r : result A) :
  quiet ev -> keeps_quiet (call ev r).
Proof. apply keeps_quiet_call_h. Qed.

Lemma keeps_quiet_bind (m : M A) (k : A -> M B) :
  keeps_quiet m -> (forall a, keeps_quiet (k a)) -> keeps_quiet (bind m k).
Proof.
  intros Hm Hk t Ht. unfold bind. specialize (Hm t Ht).
  destruct (m t) as [[a|e|] t']; cbn [snd] in *; auto.
  now apply Hk.
Qed.

Lemma keeps_quiet_try_except (m : M A) (handler : exn -> option (M A)) :
  keeps_quiet m -> (forall e h, handler e = Some h -> keeps_quiet h) ->
  keeps_quiet (try_except m handler).
Proof.
  intros Hm Hh t Ht. unfold try_except. specialize (Hm t Ht).
  destruct (m t) as [[a|e|] t']; cbn [snd] in *; auto.
  destruct (handler e) as [h|] eqn:He; cbn [snd]; auto.
  now apply (Hh e h He).
Qed.

End KeepsQuiet.

Lemma keeps_quiet_for_each {A} (l : list A) (body : A -> M unit) :
  (forall x, keeps_quiet (body x)) -> keeps_quiet (for_each l body).
Proof.
  intros Hbody. induction l as [|x l IH]; cbn [for_each].
  - apply keeps_quiet_ret.
  - apply keeps_quiet_bind; auto.
Qed.

Lemma keeps_quiet_on_psutil_error {A} (h : M A) (e : exn) (h' : M A) :
  keeps_quiet h -> on_psutil_error h e = Some h' -> keeps_quiet h'.
Proof.
  unfold on_psutil_error. destruct (is_psutil_tolerated e); [|discriminate].
  now intros Hh [= <-].
Qed.

Lemma keeps_quiet_on_Exception {A} (h : exn -> M A) (e : exn) (h' : M A) :
  (forall e, keeps_quiet (h e)) -> on_Exception h e = Some h' -> keeps_quiet h'.
Proof.
  unfold on_Exception. destruct (is_Exception e); [|discriminate].
  intros Hh [= <-]. apply Hh.
Qed.

(** One step of a proof that a piece of the program keeps the trace quiet. *)
Ltac keeps_quiet_step :=
  match goal with
  | |- keeps_quiet (bind _ _) => apply keeps_quiet_bind; [|intros]
  | |- keeps_quiet (ret _) => apply keeps_quiet_ret
  | |- keeps_quiet (raise _) => apply keeps_quiet_raise
  | |- keeps_quiet (sys_exit _) => apply keeps_quiet_raise
  | |- keeps_quiet diverge => apply keeps_quiet_diverge
  | |- keeps_quiet (call _ _) => apply keeps_quiet_call; exact I
  | |- keeps_quiet (call_h _ _) => apply keeps_quiet_call_h; exact I
  | |- keeps_quiet (eprint _) => apply keeps_quiet_call; exact I
  | |- keeps_quiet (for_each _ _) => apply keeps_quiet_for_each; intros
  | |- keeps_quiet (try_except _ (on_psutil_error _)) =>
      apply keeps_quiet_try_except;
      [|intros ? ?; apply keeps_quiet_on_psutil_error]
  | |- keeps_quiet (try_except _ (on_Exception _)) =>
      apply keeps_quiet_try_except;
      [|intros ? ?; apply keeps_quiet_on_Exception; intros]
  | |- keeps_quiet (if ?b then _ else _) => destruct b
  | |- keeps_quiet (match ?x with Some _ => _ | None => _ end) => destruct x
  | |- keeps_quiet (match ?x with [] => _ | _ :: _ => _ end) => destruct x
  end.

Ltac keeps_quiet_auto := repeat keeps_quiet_step; auto.

Section ProgramKeepsQuiet.

Context {config : Type} (E : env config).

Lemma keeps_quiet_find_claude_process : keeps_quiet (find_claude_process E).
Proof.
  unfold find_claude_process. keeps_quiet_auto.
  induction a as [|p rest IH]; cbn [scan_processes]; keeps_quiet_auto.
  unfold is_claude, name_of, cmdline_of. keeps_quiet_auto.
Qed.

Lemma keeps_quiet_walk_exe (fuel : nat) (current : option pid) :
  keeps_quiet (walk_exe E fuel current).
Proof.
  revert current. induction fuel as [|fuel IH]; intros current;
    cbn [walk_exe]; unfold exe_of, parent_of; keeps_quiet_auto.
Qed.

Lemma keeps_quiet_walk_name (fuel : nat) (current candidate : option pid) :
  keeps_quiet (walk_name E fuel current candidate).
Proof.
  revert current candidate. induction fuel as [|fuel IH]; intros current candidate;
    cbn [walk_name]; unfold name_of, parent_of; keeps_quiet_auto.
Qed.

Lemma keeps_quiet_kill_claude_process (fuel : nat) :
  keeps_quiet (kill_claude_process E fuel).
Proof.
  pose proof keeps_quiet_find_claude_process.
  pose proof keeps_quiet_walk_exe.
  pose proof keeps_quiet_walk_name.
  unfold kill_claude_process, native_quit, locate_claude, get_main_claude_process,
    terminate_tree.
  keeps_quiet_auto.
Qed.

Lemma keeps_quiet_daemonize : keeps_quiet (daemonize E).
Proof.
  unfold daemonize, fork, os_do. keeps_quiet_auto.
  all: apply keeps_quiet_try_except;
    [keeps_quiet_auto
    |intros e h; destruct (is_OSError e); [intros [= <-]|discriminate];
     keeps_quiet_auto].
Qed.

Lemma keeps_quiet_start_in_background (main_rec : Args -> M unit) (args : Args) :
  keeps_quiet (main_rec args) ->
  keeps_quiet (start_in_background E main_rec args).
Proof.
  intros Hrec. pose proof keeps_quiet_daemonize.
  unfold start_in_background, fork. keeps_quiet_auto.
Qed.

(** With [--daemon], or with a probe that does not answer true, [main] adds
    neither the injection nor the start of the server to the trace. *)
Lemma keeps_quiet_main (depth fuel : nat) (args : Args) :
  daemon args = true \/ is_port_open E (port args) <> Ok true ->
  keeps_quiet (main E depth fuel args).
Proof.
  intros Hcase. induction depth as [|depth IH]; cbn [main].
  - apply keeps_quiet_diverge.
  - apply keeps_quiet_bind; [keeps_quiet_auto|intros _].
    destruct (daemon args) eqn:Hd.
    + now apply keeps_quiet_start_in_background.
    + destruct Hcase as [Hcase|Hport]; [discriminate|].
      intros t Ht. unfold bind at 1. unfold call at 1, call_h.
      destruct (is_port_open E (port args)) as [[|]|e]; cbn [negb].
      * congruence.
      * pose proof (keeps_quiet_kill_claude_process fuel).
        match goal with
        | |- Forall quiet (snd (?m ?t0)) =>
            assert (Hm : keeps_quiet m); [|apply Hm]
        end.
        { keeps_quiet_auto. apply keeps_quiet_try_except; [keeps_quiet_auto|].
          intros e h. destruct (is_TimeoutError e);
            [|destruct (is_Exception e)]; intros [= <-]; keeps_quiet_auto. }
        apply Forall_app. split; [exact Ht|repeat constructor].
      * cbn [snd]. apply Forall_app. split; [exact Ht|repeat constructor].
Qed.

End ProgramKeepsQuiet.

(** ** The Launch Orchestrator: main *)

Lemma main_closed_port {config} (E : env config) (depth fuel : nat) (args : Args)
    (t : trace) :
  daemon args = false -> is_port_open E (port args) = Ok false ->
  main E (S depth) fuel args t =
  (killed <- kill_claude_process E fuel ;;
   (if killed then eprint MsgExistingTerminated else ret tt) ;;
   eprint (MsgStartingClaude (port args)) ;;
   try_except
     (call (EStartClaude (port args)) (start_claude E (port args)))
     (fun e =>
        if is_TimeoutError e then Some (eprint (MsgFailedConnect (port args)))
        else if is_Exception e then Some (eprint (MsgErrorStarting e))
        else None)) (t ++ before_kill args).
Proof.
  intros Hd Hport. cbn [main]. rewrite Hd.
  unfold bind at 1. unfold eprint at 1, call at 1, call_h.
  unfold bind at 1. unfold call at 1, call_h. rewrite Hport. cbn [negb].
  unfold bind at 1. unfold eprint at 1, call at 1, call_h.
  unfold bind at 1. unfold eprint at 1, call at 1, call_h.
  unfold before_kill. now rewrite <- !app_assoc.
Qed.

(** C7: in main, when the port probe is false, start_claude is invoked
    whether kill_claude_process returned true or false: it is the next call
    after the kill attempt and its log lines. *)
Theorem main_launches_whatever_kill_returns
    {config} (E : env config) (depth fuel : nat) (args : Args) (t t1 : trace)
    (killed : bool) :
  daemon args = false ->
  is_port_open E (port args) = Ok false ->
  kill_claude_process E fuel (t ++ before_kill args) = (Ret killed, t1) ->
  exists tail,
    snd (main E (S depth) fuel args t) =
    t1 ++ (if killed then [Eprint MsgExistingTerminated] else [])
       ++ [Eprint (MsgStartingClaude (port args)); EStartClaude (port args)]
       ++ tail.
Proof.
  intros Hd Hport Hkill. rewrite main_closed_port by assumption.
  unfold bind at 1. rewrite Hkill.
  unfold_prog.
  destruct killed; destruct (start_claude E (port args)) as [[]|e];
    try destruct (is_TimeoutError e); try destruct (is_Exception e);
    cbn [snd]; rewrite <- ?app_assoc; cbn [app];
    eexists; try reflexivity;
    try (rewrite app_nil_r; reflexivity).
Qed.

Lemma main_launches_whatever_kill_returns_witness :
  exists tail,
    snd (main no_app_env 1 4 (mkArgs 9222 false) []) =
    ([] ++ before_kill (mkArgs 9222 false)
        ++ [EGetpid; EExe 10; EParent 10; EExe 7; EParent 7; EExe 1; EParent 1;
            EGetpid; EName 10; EParent 10; EName 7; EParent 7; EName 1; EParent 1;
            EProcessIter; EName 1; ECmdline 1; EName 7; ECmdline 7;
            EName 10; ECmdline 10])
    ++ []
    ++ [Eprint (MsgStartingClaude 9222); EStartClaude 9222]
    ++ tail.
Proof.
  apply (main_launches_whatever_kill_returns no_app_env 0 4 (mkArgs 9222 false)
           [] _ false); reflexivity.
Defined.

Lemma main_after_kill {config} (E : env config) (depth fuel : nat) (args : Args)
    (t t1 : trace) (killed : bool) :
  daemon args = false ->
  is_port_open E (port args) = Ok false ->
  kill_claude_process E fuel (t ++ before_kill args) = (Ret killed, t1) ->
  main E (S depth) fuel args t =
  (launch_outcome (start_claude E (port args)),
   t1 ++ (if killed then [Eprint MsgExistingTerminated] else [])
      ++ [Eprint (MsgStartingClaude (port args)); EStartClaude (port args)]
      ++ launch_log args (start_claude E (port args))).
Proof.
  intros Hd Hport Hkill. rewrite main_closed_port by assumption.
  unfold bind at 1. rewrite Hkill. unfold_prog.
  unfold launch_outcome, launch_log.
  destruct killed; destruct (start_claude E (port args)) as [[]|e];
    try destruct (is_TimeoutError e); try destruct (is_Exception e);
    rewrite <- ?app_assoc; cbn [app]; rewrite ?app_nil_r; reflexivity.
Qed.

(** C1, as the spec states it, fails: in [no_app_env] the probe is false and
    start_claude completes without raising, and main returns right after the
    launch, with neither the injection nor the start of the Control Server. *)
Lemma main_returns_after_successful_launch :
  is_port_open no_app_env 9222 = Ok false
  /\ start_claude no_app_env 9222 = Ok tt
  /\ fst (main no_app_env 1 4 (mkArgs 9222 false) []) = Ret tt
  /\ last (snd (main no_app_env 1 4 (mkArgs 9222 false) [])) EMcpRun
     = EStartClaude 9222
  /\ ~ In EMcpRun (snd (main no_app_env 1 4 (mkArgs 9222 false) []))
  /\ ~ In (EInjectScript 9222) (snd (main no_app_env 1 4 (mkArgs 9222 false) [])).
Proof.
  repeat split; try reflexivity;
    cbv; intros H;
    repeat (destruct H as [H|H]; [discriminate H|]); exact H.
Qed.

(** C1, as the code has it.  When the initial port probe is false and
    kill_claude_process returns, main calls start_claude and then ends, with
    neither the injection nor the start of the Control Server, whether
    start_claude completed or raised: it returns normally when start_claude
    completes or raises an [Exception].  The injection and the Control Server
    are reached only when the initial port probe is true (and --daemon is not
    set); then the Control Server is started once the injection completes. *)
Theorem main_starts_server_only_on_open_port
    {config} (E : env config) (depth fuel : nat) (args : Args) (t : trace) :
  Forall quiet t ->
  (In EMcpRun (snd (main E depth fuel args t))
   \/ In (EInjectScript (port args)) (snd (main E depth fuel args t)) ->
   daemon args = false /\ is_port_open E (port args) = Ok true)
  /\ (daemon args = false -> is_port_open E (port args) = Ok true ->
      inject_script E (claude_config E) (port args) = Ok tt ->
      snd (main E (S depth) fuel args t) =
      t ++ [Eprint (MsgStarting (port args)); EIsPortOpen (port args);
            EInjectScript (port args); EMcpRun])
  /\ (daemon args = false -> is_port_open E (port args) = Ok false ->
      forall killed t1,
        kill_claude_process E fuel (t ++ before_kill args) = (Ret killed, t1) ->
        main E (S depth) fuel args t =
        (launch_outcome (start_claude E (port args)),
         t1 ++ (if killed then [Eprint MsgExistingTerminated] else [])
            ++ [Eprint (MsgStartingClaude (port args)); EStartClaude (port args)]
            ++ launch_log args (start_claude E (port args)))
        /\ (start_claude E (port args) = Ok tt
            \/ (exists e, start_claude E (port args) = Err e
                          /\ is_Exception e = true) ->
            fst (main E (S depth) fuel args t) = Ret tt)
        /\ ~ In EMcpRun (snd (main E (S depth) fuel args t))
        /\ (forall p, ~ In (EInjectScript p) (snd (main E (S depth) fuel args t)))).
Proof.
  intros Ht. split; [|split].
  - intros Hin.
    assert (Hloud : ~ Forall quiet (snd (main E depth fuel args t))).
    { intros Hall. rewrite Forall_forall in Hall.
      destruct Hin as [Hin|Hin]; exact (Hall _ Hin). }
    destruct (daemon args) eqn:Hd.
    + exfalso. apply Hloud. apply keeps_quiet_main; auto.
    + split; [reflexivity|].
      destruct (is_port_open E (port args)) as [[|]|e] eqn:Hport; [reflexivity| |];
        exfalso; apply Hloud; apply keeps_quiet_main; auto;
        right; congruence.
  - intros Hd Hport Hinj. cbn [main]. rewrite Hd. unfold_prog.
    rewrite Hport, Hinj. cbn [negb].
    destruct (mcp_run E) as [[]|e]; cbn [snd]; now rewrite <- !app_assoc.
  - intros Hd Hport killed t1 Hkill.
    assert (Hquiet : Forall quiet (snd (main E (S depth) fuel args t))).
    { apply keeps_quiet_main; [right; congruence|exact Ht]. }
    rewrite Forall_forall in Hquiet.
    split; [now apply main_after_kill|].
    split; [|split].
    + intros Hstart.
      rewrite (main_after_kill E depth fuel args t t1 killed Hd Hport Hkill).
      cbn [fst]. unfold launch_outcome.
      destruct Hstart as [->|(e & -> & He)]; [reflexivity|].
      rewrite He. now destruct (is_TimeoutError e).
    + intros Hin. exact (Hquiet _ Hin).
    + intros p Hin. exact (Hquiet _ Hin).
Qed.

Lemma main_starts_server_only_on_open_port_witness :
  (daemon (mkArgs 9222 false) = false
   /\ is_port_open listening_env (port (mkArgs 9222 false)) = Ok true)
  /\ fst (main no_app_env 1 4 (mkArgs 9222 false) []) = Ret tt.
Proof.
  split.
  - apply (proj1 (main_starts_server_only_on_open_port listening_env 1 4
                    (mkArgs 9222 false) [] (Forall_nil _))).
    left. cbv. tauto.
  - destruct (proj2 (proj2 (main_starts_server_only_on_open_port no_app_env 0 4
                              (mkArgs 9222 false) [] (Forall_nil _)))
                eq_refl eq_refl false _ eq_refl) as (_ & Hret & _).
    apply Hret. left. reflexivity.
Defined.

(** ** The Daemonizer: main with --daemon *)

(** C3: on a POSIX platform, main with the --daemon flag set never starts the
    Control Server, in no process of the run (whatever the forks answer).  The
    parent of the fork of start_in_background logs and exits with status 0.
    The child of every fork comes out of daemonize and calls main with the
    same arguments, whose daemon flag is still true: it runs
    start_in_background again and forks again. *)
Theorem main_daemon_never_starts_server
    {config} (E : env config) (args : Args) :
  sys_platform E <> "win32" ->
  daemon args = true ->
  (forall depth fuel t,
     Forall quiet t -> Forall quiet (snd (main E depth fuel args t)))
  /\ (forall depth fuel t child,
        os_fork E (t ++ [Eprint (MsgStarting (port args))]) = Ok child ->
        child <> 0 ->
        main E (S depth) fuel args t =
        (Raise (SystemExit 0),
         t ++ [Eprint (MsgStarting (port args)); EFork; Eprint MsgStartedBackground]))
  /\ (forall depth fuel t,
        (forall h, os_fork E h = Ok 0) -> (forall ev, os_call E ev = Ok tt) ->
        main E (S depth) fuel args t = main E depth fuel args (t ++ daemon_round args)).
Proof.
  intros Hposix Hd.
  apply String.eqb_neq in Hposix.
  split; [|split].
  - intros depth fuel t. apply keeps_quiet_main. now left.
  - intros depth fuel t child Hfork Hchild.
    cbn [main]. rewrite Hd. unfold start_in_background. rewrite Hposix.
    unfold_prog. rewrite Hfork.
    apply Z.eqb_neq in Hchild. rewrite Hchild.
    now rewrite <- !app_assoc.
  - intros depth fuel t Hfork Hcall.
    cbn [main]. rewrite Hd. unfold start_in_background, daemonize.
    rewrite Hposix. unfold_prog.
    repeat (progress (rewrite ?Hfork, ?Hcall;
                      cbn [Z.eqb Z.gtb Z.compare is_OSError]; cbv beta iota)).
    unfold daemon_round. rewrite <- !app_assoc. reflexivity.
Qed.

Lemma main_daemon_never_starts_server_witness :
  Forall quiet (snd (main no_app_env 3 4 (mkArgs 9222 true) []))
  /\ main no_app_env 3 4 (mkArgs 9222 true) [] =
     main no_app_env 1 4 (mkArgs 9222 true)
       (daemon_round (mkArgs 9222 true) ++ daemon_round (mkArgs 9222 true)).
Proof.
  destruct (main_daemon_never_starts_server no_app_env (mkArgs 9222 true))
    as (Hquiet & _ & Hchild).
  - discriminate.
  - reflexivity.
  - split; [apply Hquiet; constructor|].
    rewrite !Hchild by reflexivity. reflexivity.
Defined.

(** ** The Control Server: autoapproved_tools *)

(** C10: autoapproved_tools returns the Trusted Tool List the configuration
    collaborator yields, as it is: the same entries in the same order.  It
    asks the collaborator at every call and keeps nothing: two calls are two
    requests, with the same answer. *)
Theorem autoapproved_tools_returns_trusted_tools
    {config} (E : env config) (tools : list string) (t : trace) :
  get_trusted_tools E (claude_config E) = Ok tools ->
  autoapproved_tools E t = (Ret tools, t ++ [EGetTrustedTools])
  /\ (first <- autoapproved_tools E ;; second <- autoapproved_tools E ;;
      ret (first, second)) t
     = (Ret (tools, tools), t ++ [EGetTrustedTools; EGetTrustedTools]).
Proof.
  intros Htools. unfold autoapproved_tools. unfold_prog. rewrite Htools.
  split; [reflexivity|]. now rewrite <- app_assoc.
Qed.

Lemma autoapproved_tools_returns_trusted_tools_witness :
  autoapproved_tools three_tools_env [] =
  (Ret ["read_file"; "list_directory"; "search_files"], [EGetTrustedTools]).
Proof.
  apply (proj1 (autoapproved_tools_returns_trusted_tools three_tools_env
                  ["read_file"; "list_directory"; "search_files"] [] eq_refl)).
Defined.

(** * Further properties of the program *)

(** ** find_claude_process *)

(** X1: when the attribute reads raise nothing but the three tolerated
    kinds, find_claude_process returns the first process of the table, in the
    order of the iteration, whose name is read and whose name or arguments
    identify the app; None when there is none.  A process whose name cannot be
    read is passed over even when its command line identifies the app. *)
Theorem find_claude_process_returns_first_identified
    {config} (E : env config) (t : trace) :
  (forall q, In q (process_iter E) -> reads_tolerated E q) ->
  fst (find_claude_process E t) =
  Ret (find (fun p => is_ok (proc_name E p) && app_identifying E p) (process_iter E)).
Proof.
  intros Htol.
  rewrite find_claude_process_scan, scan_processes_find by exact Htol.
  f_equal. apply find_pointwise. apply valid_match_spec.
Qed.

Lemma find_claude_process_returns_first_identified_witness :
  fst (find_claude_process four_procs_env []) = Ret (Some 4).
Proof.
  refine (eq_trans
            (find_claude_process_returns_first_identified four_procs_env [] _) _).
  - intros q Hq e. cbn in Hq.
    destruct Hq as [<-|[<-|[<-|[<-|[]]]]]; cbn;
      intros [H|H]; inversion H; reflexivity.
  - reflexivity.
Defined.



Lemma scan_processes_skip {config} (E : env config) (pre rest : list pid) (t : trace) :
  (forall q, In q pre -> reads_tolerated E q /\ valid_match E q = false) ->
  exists t', scan_processes E (pre ++ rest) t = scan_processes E rest t'.
Proof.
  revert t. induction pre as [|q pre IH]; intros t Hpre; [now exists t|].
  cbn [app scan_processes]. unfold bind at 1. unfold try_except.
  destruct (Hpre q (or_introl eq_refl)) as [Htol Hnot].
  unfold valid_match in Hnot. rewrite <- (is_claude_fst E q t) in Hnot.
  pose proof (is_claude_outcome E q t) as Hout.
  destruct (is_claude E q t) as [[b|e|] t'] eqn:Hrun; cbn [fst] in *.
  - destruct b; [discriminate|]. apply IH. intros r Hr. apply Hpre. now right.
  - unfold on_psutil_error. rewrite (Htol e Hout). unfold ret.
    apply IH. intros r Hr. apply Hpre. now right.
  - contradiction.
Qed.

(** X3: the scan swallows the three tolerated kinds only.  On a platform
    it knows, when the name of a process cannot be read for another reason and
    no process before it in the table is a match, find_claude_process raises
    that error, whatever comes after in the table. *)
Theorem find_claude_process_propagates_other_errors
    {config} (E : env config) (t : trace) (pre post : list pid) (p : pid) (e : exn) :
  sys_platform E = "darwin" \/ sys_platform E = "win32"
  \/ startswith (sys_platform E) "linux" = true ->
  process_iter E = pre ++ p :: post ->
  (forall q, In q pre -> reads_tolerated E q /\ valid_match E q = false) ->
  proc_name E p = Err e ->
  is_psutil_tolerated e = false ->
  fst (find_claude_process E t) = Raise e.
Proof.
  intros Hplat Htable Hpre Hname Hother.
  rewrite find_claude_process_scan, Htable.
  destruct (scan_processes_skip E pre (p :: post) (t ++ [EProcessIter]) Hpre)
    as [t' ->].
  cbn [scan_processes]. unfold is_claude.
  destruct (String.eqb (sys_platform E) "darwin") eqn:Hd;
    [|destruct (String.eqb (sys_platform E) "win32") eqn:Hw;
      [|destruct (startswith (sys_platform E) "linux") eqn:Hl]];
    unfold_prog; rewrite ?Hname, ?Hother; try reflexivity.
  exfalso. apply String.eqb_neq in Hd, Hw.
  destruct Hplat as [H|[H|H]]; congruence.
Qed.

Lemma find_claude_process_propagates_other_errors_witness :
  fst (find_claude_process oserror_env []) = Raise OSError.
Proof.
  apply (find_claude_process_propagates_other_errors oserror_env [] [1] [3] 2 OSError).
  - right. right. reflexivity.
  - reflexivity.
  - intros q [<-|[]]. split; [|reflexivity].
    intros e [H|H]; discriminate H.
  - reflexivity.
  - reflexivity.
Defined.

(** ** get_main_claude_process *)

Lemma walk_exe_nearest {config} (E : env config) (n : nat) :
  forall (p q : pid) (fuel : nat) (t : trace),
    (forall a, In a (ancestors E n p) -> exe_tolerated E a) ->
    find (exe_matches E) (ancestors E n p) = Some q ->
    (n < fuel)%nat ->
    fst (walk_exe E fuel (Some p) t) = Ret (Some q).
Proof.
  induction n as [|n IH]; intros p q fuel t Htol Hfind Hfuel;
    (destruct fuel as [|fuel]; [lia|]);
    cbn [walk_exe]; unfold_prog;
    pose proof (Htol p (or_introl eq_refl)) as Hp;
    cbn [ancestors find] in Hfind; unfold exe_matches at 1 in Hfind;
    unfold exe_tolerated in Hp.
  - destruct (proc_exe E p) as [x|e].
    + destruct (contains _ x); [now injection Hfind as <-|discriminate].
    + discriminate.
  - destruct (proc_exe E p) as [x|e].
    + destruct (contains _ x); [now injection Hfind as <-|].
      destruct (proc_parent E p) as [[r|]|e'] eqn:Hpar; try discriminate.
      apply IH; [|assumption|lia].
      intros a Ha. apply Htol. cbn [ancestors]. rewrite Hpar. now right.
    + rewrite (Hp e eq_refl).
      change (contains "Contents/MacOS/Claude" "") with false. cbv iota.
      destruct (proc_parent E p) as [[r|]|e'] eqn:Hpar; try discriminate.
      apply IH; [|assumption|lia].
      intros a Ha. apply Htol. cbn [ancestors]. rewrite Hpar. now right.
Qed.

(** X4: get_main_claude_process returns the nearest ancestor of the
    current process (the process itself included) whose executable path is
    that of the bundle binary, as soon as the walk meets it: whatever the chain
    is beyond it, a chain that never ends included. *)
Theorem get_main_claude_process_nearest_bundle_binary
    {config} (E : env config) (n fuel : nat) (q : pid) (t : trace) :
  (forall a, In a (ancestors E n (os_getpid E)) -> exe_tolerated E a) ->
  find (exe_matches E) (ancestors E n (os_getpid E)) = Some q ->
  (n < fuel)%nat ->
  fst (get_main_claude_process E fuel t) = Ret (Some q).
Proof.
  intros Htol Hfind Hfuel. rewrite get_main_claude_process_unfold.
  pose proof (walk_exe_nearest E n (os_getpid E) q fuel (t ++ [EGetpid])
                Htol Hfind Hfuel) as Hwalk.
  destruct (walk_exe E fuel (Some (os_getpid E)) (t ++ [EGetpid])) as [o t'].
  cbn [fst] in Hwalk. now subst o.
Qed.

Lemma get_main_claude_process_nearest_bundle_binary_witness :
  fst (get_main_claude_process cyclic_app_env 2 []) = Ret (Some 5).
Proof.
  apply (get_main_claude_process_nearest_bundle_binary cyclic_app_env 1 2 5 []).
  - intros a Ha e. cbn in Ha. destruct Ha as [<-|[<-|[]]]; cbn;
      intros H; inversion H; reflexivity.
  - reflexivity.
  - lia.
Defined.

Lemma find_snoc {A} (f : A -> bool) (l : list A) (x : A) :
  find f (l ++ [x]) =
  match find f l with
  | Some y => Some y
  | None => if f x then Some x else None
  end.
Proof.
  induction l as [|y l IH]; [reflexivity|].
  cbn. destruct (f y); [reflexivity|exact IH].
Qed.

Lemma walk_exe_no_match {config} (E : env config) (n : nat) :
  forall (p : pid) (l : list pid) (fuel : nat) (t : trace),
    lineage E n p = Some l ->
    (forall a, In a l -> exe_tolerated E a) ->
    find (exe_matches E) l = None ->
    (n + 2 <= fuel)%nat ->
    fst (walk_exe E fuel (Some p) t) = Ret None.
Proof.
  induction n as [|n IH]; intros p l fuel t Hlin Htol Hfind Hfuel;
    (destruct fuel as [|fuel]; [lia|]);
    cbn [walk_exe]; unfold_prog; cbn [lineage] in Hlin;
    destruct (proc_parent E p) as [[r|]|e'] eqn:Hpar; try discriminate Hlin.
  all: try (destruct (lineage E n r) as [l'|] eqn:Hl'; [|discriminate Hlin];
            cbn [option_map] in Hlin).
  all: injection Hlin as <-;
    pose proof (Htol p (or_introl eq_refl)) as Hp; unfold exe_tolerated in Hp;
    cbn [find] in Hfind; unfold exe_matches at 1 in Hfind;
    destruct (proc_exe E p) as [x|e];
    [destruct (contains _ x); [discriminate Hfind|]
    |rewrite (Hp e eq_refl);
     change (contains "Contents/MacOS/Claude" "") with false; cbv iota].
  all: try (destruct fuel as [|fuel]; [lia|reflexivity]).
  all: apply (IH r l'); [assumption| |assumption|lia];
    intros a Ha; apply Htol; now right.
Qed.

Lemma walk_name_topmost {config} (E : env config) (n : nat) :
  forall (p : pid) (l : list pid) (c : option pid) (fuel : nat) (t : trace),
    lineage E n p = Some l ->
    (forall a, In a l -> is_ok (proc_name E a) = true) ->
    (n + 2 <= fuel)%nat ->
    fst (walk_name E fuel (Some p) c t) =
    Ret match find (name_matches E) (rev l) with
        | Some q => Some q
        | None => c
        end.
Proof.
  induction n as [|n IH]; intros p l c fuel t Hlin Hnames Hfuel;
    (destruct fuel as [|fuel]; [lia|]);
    cbn [walk_name]; unfold_prog; cbn [lineage] in Hlin;
    destruct (proc_parent E p) as [[r|]|e'] eqn:Hpar; try discriminate Hlin.
  all: try (destruct (lineage E n r) as [l'|] eqn:Hl'; [|discriminate Hlin];
            cbn [option_map] in Hlin).
  all: injection Hlin as <-;
    pose proof (Hnames p (or_introl eq_refl)) as Hp;
    cbn [rev]; rewrite ?find_snoc; cbn [app find];
    destruct (proc_name E p) as [name|e] eqn:Hname; [clear Hp|discriminate Hp];
    assert (Hm : name_matches E p
                 = (String.eqb (lower name) "claude"
                    || String.eqb (lower name) "claude.exe")%bool)
      by (unfold name_matches; now rewrite Hname);
    rewrite Hm.
  all: try (destruct fuel as [|fuel]; [lia|];
            cbn [walk_name]; unfold ret; cbn [fst];
            now destruct (_ || _)%bool).
  rewrite (IH r l') by (try assumption; try lia; intros a Ha; apply Hnames; now right).
  destruct (find (name_matches E) (rev l')); [reflexivity|].
  now destruct (_ || _)%bool.
Qed.

(** X5: when no ancestor has the executable path of the bundle binary,
    get_main_claude_process returns the topmost ancestor of the current
    process (the one nearest to the root of the parent chain) whose name is
    claude or claude.exe whatever the case of its letters; None when no
    ancestor is so named. *)
Theorem get_main_claude_process_topmost_named
    {config} (E : env config) (n fuel : nat) (l : list pid) (t : trace) :
  lineage E n (os_getpid E) = Some l ->
  (forall a, In a l -> exe_tolerated E a) ->
  find (exe_matches E) l = None ->
  (forall a, In a l -> is_ok (proc_name E a) = true) ->
  (n + 2 <= fuel)%nat ->
  fst (get_main_claude_process E fuel t) = Ret (find (name_matches E) (rev l)).
Proof.
  intros Hlin Htol Hfind Hnames Hfuel. rewrite get_main_claude_process_unfold.
  pose proof (walk_exe_no_match E n (os_getpid E) l fuel (t ++ [EGetpid])
                Hlin Htol Hfind Hfuel) as Hwalk.
  destruct (walk_exe E fuel (Some (os_getpid E)) (t ++ [EGetpid])) as [o t'].
  cbn [fst] in Hwalk. subst o.
  rewrite (walk_name_topmost E n (os_getpid E) l None fuel _ Hlin Hnames Hfuel).
  now destruct (find (name_matches E) (rev l)).
Qed.

Lemma get_main_claude_process_topmost_named_witness :
  fst (get_main_claude_process nested_claude_env 5 []) = Ret (Some 5).
Proof.
  refine (eq_trans
            (get_main_claude_process_topmost_named nested_claude_env 3 5
               [10; 6; 5; 1] [] eq_refl _ eq_refl _ _) _).
  - intros a Ha e. cbn in Ha. destruct Ha as [<-|[<-|[<-|[<-|[]]]]]; cbn;
      intros H; discriminate H.
  - intros a Ha. cbn in Ha. destruct Ha as [<-|[<-|[<-|[<-|[]]]]]; reflexivity.
  - lia.
  - reflexivity.
Defined.

Lemma last_nonempty {A} (x : A) (l : list A) (d d' : A) :
  last (x :: l) d = last (x :: l) d'.
Proof.
  revert x. induction l as [|y l IH]; intros x; [reflexivity|].
  change (last (y :: l) d = last (y :: l) d'). apply IH.
Qed.

Lemma ancestors_head {config} (E : env config) (n : nat) (p : pid) :
  exists l, ancestors E n p = p :: l.
Proof. destruct n; cbn [ancestors]; eauto. Qed.

Lemma walk_exe_parent_error {config} (E : env config) (n : nat) :
  forall (p a : pid) (e : exn) (fuel : nat) (t : trace),
    (forall b, In b (ancestors E n p) -> exe_tolerated E b) ->
    find (exe_matches E) (ancestors E n p) = None ->
    last (ancestors E n p) p = a ->
    proc_parent E a = Err e ->
    (n < fuel)%nat ->
    fst (walk_exe E fuel (Some p) t) = Raise e.
Proof.
  induction n as [|n IH]; intros p a e fuel t Htol Hfind Hlast Hpar Hfuel;
    (destruct fuel as [|fuel]; [lia|]);
    cbn [walk_exe]; unfold_prog;
    pose proof (Htol p (or_introl eq_refl)) as Hp; unfold exe_tolerated in Hp;
    cbn [ancestors find] in Hfind, Hlast, Htol;
    unfold exe_matches at 1 in Hfind;
    (destruct (proc_exe E p) as [x|e0];
     [destruct (contains _ x); [discriminate Hfind|]
     |rewrite (Hp e0 eq_refl);
      change (contains "Contents/MacOS/Claude" "") with false; cbv iota]).
  1,2: cbn in Hlast; subst a; now rewrite Hpar.
  all: destruct (proc_parent E p) as [[r|]|e'] eqn:Hpp;
    [ apply (IH r a); [intros b Hb; apply Htol; now right|assumption| |assumption|lia];
      destruct (ancestors_head E n r) as [l Hl]; rewrite Hl in *;
      rewrite <- Hlast; change (last (r :: l) r = last (r :: l) p);
      apply last_nonempty
    | cbn in Hlast; subst a; congruence
    | cbn in Hlast; subst a; cbn [fst]; congruence ].
Qed.

(** X6: the reads of the parent have no handler.  When the walk up to
    the parents comes, with no executable path of the bundle binary on the
    way, to an ancestor whose parent cannot be read, get_main_claude_process
    raises that error, be it one of the three kinds that are tolerated for the
    executable path. *)
Theorem get_main_claude_process_propagates_parent_error
    {config} (E : env config) (n fuel : nat) (a : pid) (e : exn) (t : trace) :
  (forall b, In b (ancestors E n (os_getpid E)) -> exe_tolerated E b) ->
  find (exe_matches E) (ancestors E n (os_getpid E)) = None ->
  last (ancestors E n (os_getpid E)) (os_getpid E) = a ->
  proc_parent E a = Err e ->
  (n < fuel)%nat ->
  fst (get_main_claude_process E fuel t) = Raise e.
Proof.
  intros Htol Hfind Hlast Hpar Hfuel. rewrite get_main_claude_process_unfold.
  pose proof (walk_exe_parent_error E n (os_getpid E) a e fuel (t ++ [EGetpid])
                Htol Hfind Hlast Hpar Hfuel) as Hwalk.
  destruct (walk_exe E fuel (Some (os_getpid E)) (t ++ [EGetpid])) as [o t'].
  cbn [fst] in Hwalk. now subst o.
Qed.

Lemma get_main_claude_process_propagates_parent_error_witness :
  fst (get_main_claude_process parent_gone_env 3 []) = Raise NoSuchProcess.
Proof.
  apply (get_main_claude_process_propagates_parent_error parent_gone_env 1 3 7
           NoSuchProcess []).
  - intros b Hb e. cbn in Hb. destruct Hb as [<-|[<-|[]]]; cbn;
      intros H; inversion H; reflexivity.
  - reflexivity.
  - reflexivity.
  - reflexivity.
  - lia.
Defined.

(** ** What the Locator and the Terminator call *)

Section EmitsOnly.

Context (P : event -> Prop).

Lemma emits_only_ret {A} (a : A) : emits_only P (ret a).
Proof. intros t. exists []. split; [now rewrite app_nil_r|constructor]. Qed.

Lemma emits_only_raise {A} (e : exn) : emits_only P (@raise A e).
Proof. intros t. exists []. split; [now rewrite app_nil_r|constructor]. Qed.

Lemma emits_only_diverge {A} : emits_only P (@diverge A).
Proof. intros t. exists []. split; [now rewrite app_nil_r|constructor]. Qed.

Lemma emits_only_call_h {A} (ev : event) (r : trace -> result A) :
  P ev -> emits_only P (call_h ev r).
Proof.
  intros Hev t. exists [ev]. unfold call_h.
  destruct (r t); (split; [reflexivity|now constructor]).
Qed.

Lemma emits_only_call {A} (ev : event) (r : result A) :
  P ev -> emits_only P (call ev r).
Proof. apply emits_only_call_h. Qed.

Lemma emits_only_bind {A B} (m : M A) (k : A -> M B) :
  emits_only P m -> (forall a, emits_only P (k a)) -> emits_only P (bind m k).
Proof.
  intros Hm Hk t. unfold bind. destruct (Hm t) as (e1 & Ht1 & H1).
  destruct (m t) as [[a|e|] t']; cbn [snd] in *; subst t'.
  - destruct (Hk a (t ++ e1)) as (e2 & Ht2 & H2).
    exists (e1 ++ e2). rewrite Ht2, app_assoc. split; [reflexivity|].
    apply Forall_app. now split.
  - now exists e1.
  - now exists e1.
Qed.

Lemma emits_only_try_except {A} (m : M A) (handler : exn -> option (M A)) :
  emits_only P m -> (forall e h, handler e = Some h -> emits_only P h) ->
  emits_only P (try_except m handler).
Proof.
  intros Hm Hh t. unfold try_except. destruct (Hm t) as (e1 & Ht1 & H1).
  destruct (m t) as [[a|e|] t']; cbn [snd] in *; subst t'.
  - now exists e1.
  - destruct (handler e) as [h|] eqn:He; [|now exists e1].
    destruct (Hh e h He (t ++ e1)) as (e2 & Ht2 & H2).
    exists (e1 ++ e2). rewrite Ht2, app_assoc. split; [reflexivity|].
    apply Forall_app. now split.
  - now exists e1.
Qed.

Lemma emits_only_for_each {A} (l : list A) (body : A -> M unit) :
  (forall x, emits_only P (body x)) -> emits_only P (for_each l body).
Proof.
  intros Hbody. induction l as [|x l IH]; cbn [for_each].
  - apply emits_only_ret.
  - apply emits_only_bind; auto.
Qed.

Lemma emits_only_on_psutil_error {A} (h : M A) (e : exn) (h' : M A) :
  emits_only P h -> on_psutil_error h e = Some h' -> emits_only P h'.
Proof.
  unfold on_psutil_error. destruct (is_psutil_tolerated e); [|discriminate].
  now intros Hh [= <-].
Qed.

Lemma emits_only_on_Exception {A} (h : exn -> M A) (e : exn) (h' : M A) :
  (forall e, emits_only P (h e)) -> on_Exception h e = Some h' -> emits_only P h'.
Proof.
  unfold on_Exception. destruct (is_Exception e); [|discriminate].
  intros Hh [= <-]. apply Hh.
Qed.

End EmitsOnly.

(** One step of a proof that a piece of the program emits events of [P]
    only; [HP] says that [P] holds of the queries. *)
Ltac emits_only_step HP :=
  match goal with
  | |- emits_only _ (bind _ _) => apply emits_only_bind; [|intros]
  | |- emits_only _ (ret _) => apply emits_only_ret
  | |- emits_only _ (raise _) => apply emits_only_raise
  | |- emits_only _ diverge => apply emits_only_diverge
  | |- emits_only _ (call _ _) =>
      apply emits_only_call; first [exact I | apply HP; exact I]
  | |- emits_only _ (eprint _) =>
      apply emits_only_call; first [exact I | apply HP; exact I]
  | |- emits_only _ (for_each _ _) => apply emits_only_for_each; intros
  | |- emits_only _ (try_except _ (on_psutil_error _)) =>
      apply emits_only_try_except;
      [|intros ? ?; apply emits_only_on_psutil_error]
  | |- emits_only _ (try_except _ (on_Exception _)) =>
      apply emits_only_try_except;
      [|intros ? ?; apply emits_only_on_Exception; intros]
  | |- emits_only _ (if ?b then _ else _) => destruct b
  | |- emits_only _ (match ?x with Some _ => _ | None => _ end) => destruct x
  | |- emits_only _ (match ?x with [] => _ | _ :: _ => _ end) => destruct x
  end.

Ltac emits_only_auto HP := repeat emits_only_step HP; auto.

Section LocatorEmits.

Context {config : Type} (E : env config) (P : event -> Prop).
Hypothesis HP : forall ev, is_query ev -> P ev.

Lemma emits_only_find_claude_process : emits_only P (find_claude_process E).
Proof.
  unfold find_claude_process. emits_only_auto HP.
  induction a as [|p rest IH]; cbn [scan_processes]; emits_only_auto HP.
  unfold is_claude, name_of, cmdline_of. emits_only_auto HP.
Qed.

Lemma emits_only_walk_exe (fuel : nat) (current : option pid) :
  emits_only P (walk_exe E fuel current).
Proof.
  revert current. induction fuel as [|fuel IH]; intros current;
    cbn [walk_exe]; unfold exe_of, parent_of; emits_only_auto HP.
Qed.

Lemma emits_only_walk_name (fuel : nat) (current candidate : option pid) :
  emits_only P (walk_name E fuel current candidate).
Proof.
  revert current candidate. induction fuel as [|fuel IH]; intros current candidate;
    cbn [walk_name]; unfold name_of, parent_of; emits_only_auto HP.
Qed.

Lemma emits_only_get_main_claude_process (fuel : nat) :
  emits_only P (get_main_claude_process E fuel).
Proof.
  pose proof emits_only_walk_exe. pose proof emits_only_walk_name.
  unfold get_main_claude_process. emits_only_auto HP.
Qed.

End LocatorEmits.

(** X7: the Locator only reads.  Whatever the process table, whatever the
    reads answer and however the searches end, find_claude_process and
    get_main_claude_process add to the history nothing but reads of the
    process table: no signal, no subprocess, no log line. *)
Theorem locator_only_reads {config} (E : env config) :
  emits_only is_query (find_claude_process E)
  /\ forall fuel, emits_only is_query (get_main_claude_process E fuel).
Proof.
  split; [|intros fuel].
  - apply emits_only_find_claude_process. auto.
  - apply emits_only_get_main_claude_process. auto.
Qed.

Lemma emits_only_kill_claude_process {config} (E : env config) (fuel : nat) :
  emits_only is_terminator_event (kill_claude_process E fuel).
Proof.
  assert (HP : forall ev, is_query ev -> is_terminator_event ev)
    by (intros []; cbn; tauto).
  pose proof (emits_only_find_claude_process E _ HP).
  pose proof (emits_only_get_main_claude_process E _ HP).
  unfold kill_claude_process, native_quit, locate_claude, terminate_tree.
  emits_only_auto HP.
Qed.

(** ** kill_claude_process *)



Lemma for_each_terminate_fails {config} (E : env config)
    (pre post : list pid) (x : pid) (e : exn) (t : trace) :
  (forall c, In c pre -> proc_terminate E c = Ok tt) ->
  proc_terminate E x = Err e ->
  for_each (pre ++ x :: post)
    (fun child => eprint (MsgTerminatingChild child) ;;
                  call (ETerminate child) (proc_terminate E child)) t
  = (Raise e, t ++ children_signalled pre x).
Proof.
  intros Hpre Hx. revert t. induction pre as [|c pre IH]; intros t.
  - cbn [app for_each]. unfold_prog. rewrite Hx.
    unfold children_signalled. cbn. now rewrite <- app_assoc.
  - cbn [app for_each]. unfold bind at 1. unfold_prog.
    rewrite (Hpre c (or_introl eq_refl)).
    fold (eprint (MsgTerminatingChild c)).
    match goal with |- for_each ?l ?b ?t0 = _ => rewrite (IH (fun c' Hc' => Hpre c' (or_intror Hc')) t0) end.
    unfold children_signalled. cbn [flat_map app].
    now rewrite <- !app_assoc.
Qed.

(** X9: the first child whose terminate signal raises ends the attempt.
    The children before it have been signalled; the children after it and the
    parent get no signal, nothing is waited for, nothing is killed; the error
    is logged and kill_claude_process returns false. *)
Theorem kill_claude_process_stops_at_failing_child
    {config} (E : env config) (fuel : nat) (t t1 t2 : trace)
    (proc : pid) (pre post : list pid) (x : pid) (e : exn) :
  native_quit E t = (Ret false, t1) ->
  locate_claude E fuel t1 = (Ret (Some proc), t2) ->
  proc_children E proc = Ok (pre ++ x :: post) ->
  (forall c, In c pre -> proc_terminate E c = Ok tt) ->
  proc_terminate E x = Err e ->
  is_Exception e = true ->
  kill_claude_process E fuel t =
  (Ret false,
   t2 ++ EChildren proc :: children_signalled pre x ++ [Eprint (MsgErrorKilling e)]).
Proof.
  intros Hquit Hloc Hch Hpre Hx He.
  unfold kill_claude_process, bind. rewrite Hquit, Hloc.
  unfold try_except, terminate_tree.
  unfold bind at 1. unfold call at 1, call_h. rewrite Hch.
  unfold bind at 1.
  rewrite (for_each_terminate_fails E pre post x e _ Hpre Hx).
  unfold on_Exception. rewrite He. unfold_prog.
  now rewrite <- !app_assoc.
Qed.

Lemma kill_claude_process_stops_at_failing_child_witness :
  kill_claude_process gone_child_env 4 [] =
  (Ret false,
   snd (locate_claude gone_child_env 4 [])
   ++ [EChildren 5; Eprint (MsgTerminatingChild 11); ETerminate 11;
       Eprint (MsgTerminatingChild 12); ETerminate 12;
       Eprint (MsgErrorKilling NoSuchProcess)]).
Proof.
  apply (kill_claude_process_stops_at_failing_child gone_child_env 4 [] [] _
           5 [11] [10] 12 NoSuchProcess); try reflexivity.
  intros c [<-|[]]. reflexivity.
Defined.

(** ** main *)

(** X10: a launch that fails does not fail main.  When the probe is false
    and kill_claude_process has returned, a start_claude that raises an
    [Exception] is logged, as a failure to connect for a TimeoutError and as an
    error of the launch otherwise, and main returns normally. *)
Theorem main_survives_failed_launch
    {config} (E : env config) (depth fuel : nat) (args : Args)
    (t t1 : trace) (killed : bool) (e : exn) :
  daemon args = false ->
  is_port_open E (port args) = Ok false ->
  kill_claude_process E fuel (t ++ before_kill args) = (Ret killed, t1) ->
  start_claude E (port args) = Err e ->
  is_Exception e = true ->
  main E (S depth) fuel args t =
  (Ret tt,
   t1 ++ (if killed then [Eprint MsgExistingTerminated] else [])
      ++ [Eprint (MsgStartingClaude (port args)); EStartClaude (port args);
          Eprint (if is_TimeoutError e then MsgFailedConnect (port args)
                  else MsgErrorStarting e)]).
Proof.
  intros Hd Hport Hkill Hstart He.
  rewrite (main_after_kill E depth fuel args t t1 killed Hd Hport Hkill).
  rewrite Hstart. unfold launch_outcome, launch_log. rewrite He.
  now destruct (is_TimeoutError e).
Qed.

Lemma main_survives_failed_launch_witness :
  fst (main launch_timeout_env 1 4 (mkArgs 9222 false) []) = Ret tt
  /\ last (snd (main launch_timeout_env 1 4 (mkArgs 9222 false) [])) EMcpRun
     = Eprint (MsgFailedConnect 9222).
Proof.
  rewrite (main_survives_failed_launch launch_timeout_env 0 4 (mkArgs 9222 false)
             [] _ false TimeoutError eq_refl eq_refl eq_refl eq_refl eq_refl).
  split; reflexivity.
Defined.

(** X11: an error that leaves kill_claude_process ends main.  When the
    probe is false and kill_claude_process raises, main raises the same error:
    start_claude is not called, and everything called since the start of main is
    the probe, the queries, the quit command, the signals and the log lines. *)
Theorem main_kill_error_blocks_launch
    {config} (E : env config) (depth fuel : nat) (args : Args) (t : trace) (e : exn) :
  daemon args = false ->
  is_port_open E (port args) = Ok false ->
  fst (kill_claude_process E fuel (t ++ before_kill args)) = Raise e ->
  fst (main E (S depth) fuel args t) = Raise e
  /\ exists evs,
       snd (main E (S depth) fuel args t) = t ++ before_kill args ++ evs
       /\ Forall is_terminator_event evs
       /\ ~ In (EStartClaude (port args)) evs.
Proof.
  intros Hd Hport Hkill.
  destruct (emits_only_kill_claude_process E fuel (t ++ before_kill args))
    as (evs & Hsnd & Hevs).
  assert (Hmain : main E (S depth) fuel args t
                  = (Raise e, (t ++ before_kill args) ++ evs)).
  { rewrite main_closed_port by assumption. unfold bind at 1.
    destruct (kill_claude_process E fuel (t ++ before_kill args)) as [o t1].
    cbn [fst snd] in *. now subst o t1. }
  rewrite Hmain. cbn [fst snd].
  split; [reflexivity|].
  exists evs. rewrite <- app_assoc. split; [reflexivity|]. split; [exact Hevs|].
  intros Hin. rewrite Forall_forall in Hevs. exact (Hevs _ Hin).
Qed.

Lemma main_kill_error_blocks_launch_witness :
  fst (main denied_parent_env 1 3 (mkArgs 9222 false) []) = Raise AccessDenied.
Proof.
  apply (proj1 (main_kill_error_blocks_launch denied_parent_env 0 3 (mkArgs 9222 false)
                  [] AccessDenied eq_refl eq_refl eq_refl)).
Defined.

(** X12: on macOS and Windows, when the native quit command does not
    raise, main with a false probe reports the app as terminated and launches
    it without one look at the process table, whether the app was running or
    not: between the probe and start_claude it calls the quit command and
    nothing else. *)
Theorem main_native_quit_reports_terminated
    {config} (E : env config) (depth fuel : nat) (args : Args) (t : trace)
    (argv : list string) :
  native_quit_command E = Some argv ->
  subprocess_run E argv = Ok tt ->
  daemon args = false ->
  is_port_open E (port args) = Ok false ->
  main E (S depth) fuel args t =
  (launch_outcome (start_claude E (port args)),
   t ++ before_kill args
     ++ [ESubprocessRun argv; Eprint MsgExistingTerminated;
         Eprint (MsgStartingClaude (port args)); EStartClaude (port args)]
     ++ launch_log args (start_claude E (port args))).
Proof.
  intros Hcmd Hrun Hd Hport.
  assert (Hkill : kill_claude_process E fuel (t ++ before_kill args)
                  = (Ret true, (t ++ before_kill args) ++ [ESubprocessRun argv])).
  { unfold kill_claude_process, bind.
    rewrite (native_quit_command_run E argv _ Hcmd), Hrun. reflexivity. }
  rewrite (main_after_kill E depth fuel args t _ true Hd Hport Hkill).
  now rewrite <- !app_assoc.
Qed.

Lemma main_native_quit_reports_terminated_witness :
  main app_child_env 1 3 (mkArgs 9222 false) [] =
  (Ret tt,
   before_kill (mkArgs 9222 false)
   ++ [ESubprocessRun osascript_quit; Eprint MsgExistingTerminated;
       Eprint (MsgStartingClaude 9222); EStartClaude 9222]).
Proof.
  apply (main_native_quit_reports_terminated app_child_env 0 3 (mkArgs 9222 false) []
           osascript_quit); reflexivity.
Defined.

(** ** daemonize, start_in_background *)

Ltac case_os H :=
  match type of H with
  | context [match os_fork ?E ?h with _ => _ end] =>
      destruct (os_fork E h) as [?c|?e] eqn:?Hfork
  | context [match os_call ?E ?ev with _ => _ end] =>
      destruct (os_call E ev) as [[]|?e] eqn:?Hcall
  | context [if ?c >? 0 then _ else _] => destruct (c >? 0) eqn:?Hchild
  | context [if is_OSError ?e then _ else _] => destruct (is_OSError e)
  end; cbv beta iota in H; cbn [fst snd] in H.

(** X13: a process that leaves daemonize normally, on a platform other
    than win32, is the child of both forks: between them it has changed to the
    root directory, become a session leader and reset the umask, and last it
    has flushed and redirected its standard streams. *)
Theorem daemonize_returns_in_the_grandchild
    {config} (E : env config) (t : trace) :
  sys_platform E <> "win32" ->
  fst (daemonize E t) = Ret tt ->
  snd (daemonize E t) = t ++ daemonize_events
  /\ exists c1 c2,
       os_fork E t = Ok c1 /\ c1 <= 0
       /\ os_fork E (t ++ [EFork; EChdir "/"; ESetsid; EUmask 0]) = Ok c2 /\ c2 <= 0.
Proof.
  intros Hposix Hret. apply String.eqb_neq in Hposix.
  destruct (daemonize E t) as [o t'] eqn:Hrun. cbn [fst snd] in *. subst o.
  unfold daemonize in Hrun. rewrite Hposix in Hrun. unfold_prog.
  repeat case_os Hrun; try discriminate Hrun.
  injection Hrun as <-.
  split; [unfold daemonize_events; now rewrite <- !app_assoc|].
  rewrite <- !app_assoc in *. cbn [app] in *.
  rewrite Z.gtb_ltb in Hchild, Hchild0. apply Z.ltb_ge in Hchild, Hchild0.
  eauto 10.
Qed.

Lemma daemonize_returns_in_the_grandchild_witness :
  snd (daemonize no_app_env []) = daemonize_events.
Proof.
  apply (proj1 (daemonize_returns_in_the_grandchild no_app_env [] ltac:(discriminate)
                  eq_refl)).
Defined.

(** X14: the exits of daemonize, at the first fork on a platform other
    than win32.  The parent of the fork exits with status 0 right after it,
    before any change to its directory or session; a fork that raises an
    OSError makes the process exit with status 1; SystemExit is not taken by
    the [except OSError] clause. *)
Theorem daemonize_first_fork_exits
    {config} (E : env config) (t : trace) :
  sys_platform E <> "win32" ->
  (forall child, os_fork E t = Ok child -> child > 0 ->
                 daemonize E t = (Raise (SystemExit 0), t ++ [EFork]))
  /\ (forall e, os_fork E t = Err e -> is_OSError e = true ->
                daemonize E t = (Raise (SystemExit 1), t ++ [EFork])).
Proof.
  intros Hposix. apply String.eqb_neq in Hposix.
  split.
  - intros child Hfork Hchild. unfold daemonize. rewrite Hposix. unfold_prog.
    rewrite Hfork. apply Z.gtb_gt in Hchild. now rewrite Hchild.
  - intros e Hfork He. unfold daemonize. rewrite Hposix. unfold_prog.
    now rewrite Hfork, He.
Qed.

Lemma daemonize_first_fork_exits_witness :
  daemonize fork_parent_env [] = (Raise (SystemExit 0), [EFork])
  /\ daemonize fork_fails_env [] = (Raise (SystemExit 1), [EFork]).
Proof.
  split.
  - apply (proj1 (daemonize_first_fork_exits fork_parent_env [] ltac:(discriminate))
             4242); reflexivity.
  - apply (proj2 (daemonize_first_fork_exits fork_fails_env [] ltac:(discriminate))
             OSError); reflexivity.
Defined.

(** X15: on Windows, main with the --daemon flag set starts the same
    command line again, [sys.executable] followed by [sys.argv], as a detached
    process, and returns: it forks nothing, probes no port and starts no
    server; an error of the start of the process leaves main. *)
Theorem main_daemon_on_windows_relaunches
    {config} (E : env config) (depth fuel : nat) (args : Args) (t : trace) :
  sys_platform E = "win32" ->
  daemon args = true ->
  main E (S depth) fuel args t =
  (match subprocess_Popen E (sys_executable E :: sys_argv E) with
   | Ok _ => Ret tt
   | Err e => Raise e
   end,
   t ++ [Eprint (MsgStarting (port args)); EPopen (sys_executable E :: sys_argv E)]).
Proof.
  intros Hwin Hd. cbn [main]. rewrite Hd. unfold start_in_background.
  rewrite Hwin. cbn [String.eqb Ascii.eqb Bool.eqb]. unfold_prog.
  destruct (subprocess_Popen E _) as [[]|e]; now rewrite <- app_assoc.
Qed.

Lemma main_daemon_on_windows_relaunches_witness :
  main windows_env 1 3 (mkArgs 9222 true) [] =
  (Ret tt, [Eprint (MsgStarting 9222); EPopen ["python3"; "autoapprove_server.py"]]).
Proof.
  apply (main_daemon_on_windows_relaunches windows_env 0 3 (mkArgs 9222 true) []);
    reflexivity.
Defined.
